(** * csim.c: a set-associative cache simulator with LRU replacement

    Shallow embedding of [isInCache], [makeCache], [freeCache],
    [incrementStats] and [main] (its options, its geometry set-up and its
    allocations), followed by the properties of the access algorithm and
    of trace replay. *)

From Stdlib Require Import ZArith Lia Ascii Bool.
From stdpp Require Import base numbers list.

Local Open Scope Z_scope.

(** ** Machine integers *)

Definition ADDR_BITS : Z := 64.

(** [unsigned long]: 64 bits, arithmetic modulo 2^64. *)
Definition wrap_ulong (x : Z) : Z := x mod 2 ^ 64.

(** [int]: 32 bits, two's complement. *)
Definition wrap_int (x : Z) : Z := (x + 2 ^ 31) mod 2 ^ 32 - 2 ^ 31.

(** The three shifts of the program.  C gives no meaning to a shift whose
    count is negative or not below the width of the shifted type, nor to a
    signed left shift whose result does not fit; the program performs such
    shifts (its own comment says so for [s = 0]) and goes on with whatever
    value comes out.  That value is a parameter of the development. *)
Inductive shift_op := ShlULong | ShrULong | ShlInt.

(** One choice of that parameter: the count taken modulo the width, as the
    x86-64 and AArch64 shift instructions do. *)
Definition masked_shift (op : shift_op) (x n : Z) : Z :=
  match op with
  | ShlULong => Z.shiftl x (n mod 64)
  | ShrULong => Z.shiftr x (n mod 64)
  | ShlInt => Z.shiftl x (n mod 32)
  end.

(** ** Data model *)

Record Line := mkLine {
  validbit : bool;
  tagbits : Z;        (* unsigned long *)
  dirtybit : bool;
  timestamp : Z       (* int *)
}.

(** [struct Set] holds nothing but its array of lines. *)
Abbreviation LineSet := (list Line).

(** [struct Cache].  The fields [S], [E], [B], [s], [b] carry a prefix here
    ([S] is the successor of [nat]). *)
Record Cache := mkCache {
  cS : Z; cE : Z; cB : Z; cs : Z; cb : Z;
  sets : list LineSet
}.

Definition with_sets (cache : Cache) (ss : list LineSet) : Cache :=
  mkCache (cS cache) (cE cache) (cB cache) (cs cache) (cb cache) ss.

Definition set_timestamp (l : Line) (t : Z) : Line :=
  mkLine (validbit l) (tagbits l) (dirtybit l) t.
Definition set_tagbits (l : Line) (t : Z) : Line :=
  mkLine (validbit l) t (dirtybit l) (timestamp l).
Definition set_validbit (l : Line) (v : bool) : Line :=
  mkLine v (tagbits l) (dirtybit l) (timestamp l).
Definition set_dirtybit (l : Line) (d : bool) : Line :=
  mkLine (validbit l) (tagbits l) d (timestamp l).

(** [bool result[5]]: one flag per counter.  Index 0 is the hit, 1 the miss,
    2 the eviction, 3 the block that became dirty, 4 the dirty block that
    was evicted. *)
Record Result := mkResult {
  r_hit : bool;             (* result[0] *)
  r_miss : bool;            (* result[1] *)
  r_eviction : bool;        (* result[2] *)
  r_dirty : bool;           (* result[3] *)
  r_dirty_eviction : bool   (* result[4] *)
}.

Definition set_r0 (r : Result) : Result :=
  mkResult true (r_miss r) (r_eviction r) (r_dirty r) (r_dirty_eviction r).
Definition set_r1 (r : Result) : Result :=
  mkResult (r_hit r) true (r_eviction r) (r_dirty r) (r_dirty_eviction r).
Definition set_r2 (r : Result) : Result :=
  mkResult (r_hit r) (r_miss r) true (r_dirty r) (r_dirty_eviction r).
Definition set_r3 (r : Result) : Result :=
  mkResult (r_hit r) (r_miss r) (r_eviction r) true (r_dirty_eviction r).
Definition set_r4 (r : Result) : Result :=
  mkResult (r_hit r) (r_miss r) (r_eviction r) (r_dirty r) true.

(** The array as [incrementStats] resets it before every call. *)
Definition no_flags : Result := mkResult false false false false false.

(** The blocks that the program asks [malloc] for, by the place of the
    call. *)
Inductive allocation :=
| CacheStruct            (* main, line 203 *)
| SetArray               (* makeCache, line 131 *)
| LineArray (i : nat)    (* makeCache, line 133, for set [i] *)
| StatsStruct            (* main, line 229 *)
| OutcomeArray.          (* incrementStats, line 164 *)

(** An access outside an allocated array, or through the null pointer that
    a [malloc] returned, has no meaning in C; the model stops there and
    says which index was out of bounds, or which pointer was null. *)
Inductive fault :=
| SetOutOfBounds (set : Z)
| LineOutOfBounds (index : nat)
| NullPointer (a : allocation).

Inductive res (A : Type) :=
| Ok (a : A)
| Crash (f : fault).
Arguments Ok {A} a.
Arguments Crash {A} f.

(** [op == 'S'] *)
Definition is_store (op : ascii) : bool := Ascii.eqb op "S"%char.

(** ** The scan of [isInCache] (the [for] loop, lines 74-101)

    [n] counts the iterations that remain ([E - i]); [i], [index] and
    [oldest] are the loop's variables.  The loop ends in one of two ways:
    the hit branch returns from the function with the set and the flags
    updated, or control reaches the code after the loop, by [break] with
    [notFull] set or because [i] reached [E]. *)
Inductive loop_exit :=
| Returned (lines : LineSet) (result : Result)
| AfterLoop (notFull : bool) (index : nat).

Fixpoint scan (n : nat) (lines : LineSet) (tag : Z) (op : ascii) (num : Z)
    (result : Result) (i index : nat) (oldest : Z) : res loop_exit :=
  match n with
  | O => Ok (AfterLoop false index)
  | Datatypes.S n' =>
    match lines !! i with
    | None => Crash (LineOutOfBounds i)
    | Some l =>
      if (tagbits l =? tag) && validbit l then
        let l1 := set_timestamp l num in
        let result1 := set_r0 result in
        if is_store op && negb (dirtybit l1)
        then Ok (Returned (<[i := set_dirtybit l1 true]> lines) (set_r3 result1))
        else Ok (Returned (<[i := l1]> lines) result1)
      else if negb (validbit l) then
        Ok (AfterLoop true i)
      else if timestamp l <? oldest then
        scan n' lines tag op num result (Datatypes.S i) i (timestamp l)
      else
        scan n' lines tag op num result (Datatypes.S i) index oldest
    end
  end.

(** The code after the loop (lines 103-123): the miss. *)
Definition place (lines : LineSet) (tag : Z) (op : ascii) (num : Z)
    (result : Result) (notFull : bool) (index : nat) : res (LineSet * Result) :=
  match lines !! index with
  | None => Crash (LineOutOfBounds index)
  | Some l =>
    let result1 := set_r1 result in
    let l1 := set_tagbits (set_timestamp l num) tag in
    let '(l2, result2) :=
      if notFull then (set_validbit l1 true, result1)
      else
        let result2 := set_r2 result1 in
        if dirtybit l1 then (set_dirtybit l1 false, set_r4 result2)
        else (l1, result2) in
    let '(l3, result3) :=
      if is_store op then (set_dirtybit l2 true, set_r3 result2)
      else (l2, result2) in
    Ok (<[index := l3]> lines, result3)
  end.

(** What [isInCache] does to the lines of the target set. *)
Definition access_lines (E : Z) (lines : LineSet) (tag : Z) (op : ascii)
    (num : Z) (result : Result) : res (LineSet * Result) :=
  match scan (Z.to_nat E) lines tag op num result 0%nat 0%nat num with
  | Crash f => Crash f
  | Ok (Returned lines' result') => Ok (lines', result')
  | Ok (AfterLoop notFull index) => place lines tag op num result notFull index
  end.

(** ** [makeCache]

    The cache that the call leaves when every [malloc] in it returned a
    block; [makeCache_alloc] below is the call with an allocator that may
    return null pointers. *)

Definition empty_line : Line := mkLine false 0 false 0.

Definition makeCache (cache : Cache) : Cache :=
  with_sets cache
    (replicate (Z.to_nat (cS cache)) (replicate (Z.to_nat (cE cache)) empty_line)).

(** ** Statistics and trace records *)

(** Modelled from the spec: [csim_stats_t] is declared in cachelab.h, which
    is not among the sources.  The spec gives it five counters, [hits],
    [misses], [evictions], [dirty_bytes] and [dirty_evictions], unsigned
    integers of no stated width; they are integers here, so that a
    subtraction that went below zero would show. *)
Record csim_stats_t := mkStats {
  hits : Z; misses : Z; evictions : Z; dirty_bytes : Z; dirty_evictions : Z
}.

Definition zero_stats : csim_stats_t := mkStats 0 0 0 0 0.

(** One record of the trace as [fscanf] delivers it. *)
Record Access := mkAccess {
  t_instruction : ascii;
  t_address : Z;      (* unsigned long *)
  t_size : Z          (* int, read and never used *)
}.

(** The five [if]s of [incrementStats] (lines 179-194). *)
Definition count_outcome (B : Z) (outcome : Result) (stats : csim_stats_t) : csim_stats_t :=
  let st0 := if r_hit outcome
    then mkStats (hits stats + 1) (misses stats) (evictions stats) (dirty_bytes stats) (dirty_evictions stats)
    else stats in
  let st1 := if r_miss outcome
    then mkStats (hits st0) (misses st0 + 1) (evictions st0) (dirty_bytes st0) (dirty_evictions st0)
    else st0 in
  let st2 := if r_eviction outcome
    then mkStats (hits st1) (misses st1) (evictions st1 + 1) (dirty_bytes st1) (dirty_evictions st1)
    else st1 in
  let st3 := if r_dirty outcome
    then mkStats (hits st2) (misses st2) (evictions st2) (dirty_bytes st2 + B) (dirty_evictions st2)
    else st2 in
  if r_dirty_eviction outcome
  then mkStats (hits st3) (misses st3) (evictions st3) (dirty_bytes st3 - B) (dirty_evictions st3 + B)
  else st3.

(** What [incrementStats] leaves when its loop ends: the statistics that
    [main] prints, the cache and [linenum]. *)
Record Run := mkRun {
  run_stats : csim_stats_t;
  run_cache : Cache;
  run_linenum : Z
}.

(** ** Caches and traces used as examples *)

(** [S = 1], [E = 2], [B = 8], [s = 0], [b = 3], before [makeCache]. *)
Definition two_way : Cache := mkCache 1 2 8 0 3 [].

(** The two-way cache after a store to address 0 at time 0. *)
Definition two_way_stored : Cache :=
  mkCache 1 2 8 0 3 [[mkLine true 0 true 0; empty_line]].

(** The two-way cache after loads from 0x8, from 0x8 again, from 0x10 and
    from 0x8 once more: a full set whose second line is the older one. *)
Definition two_way_reused : Cache :=
  mkCache 1 2 8 0 3 [[mkLine true 1 false 3; mkLine true 2 false 2]].

Definition load_at (address : Z) : Access := mkAccess "L" address 1.

(** The two-way cache after a load from 0x8 and a store to 0x10. *)
Definition two_way_replayed : Cache :=
  mkCache 1 2 8 0 3 [[mkLine true 1 false 0; mkLine true 2 true 1]].

(** A full set whose lines were both last used after time 2. *)
Definition two_way_ahead : Cache :=
  mkCache 1 2 8 0 3 [[mkLine true 1 false 5; mkLine true 2 false 3]].

(** [s = 4], [b = 3]; and [s = 4], [b = 60], where [s + b] is the width of
    an address. *)
Definition sixteen_sets : Cache := mkCache 16 1 8 4 3 [].
Definition full_width : Cache := mkCache 16 1 1 4 60 [].

Definition store0 (size : Z) : Access := mkAccess "S" 0 size.

Section Csim.

Variable undefined_shift : shift_op → Z → Z → Z.

(** [x << n] and [x >> n] on [unsigned long]. *)
Definition shl_ulong (x n : Z) : Z :=
  if (0 <=? n) && (n <? 64) then wrap_ulong (Z.shiftl x n)
  else wrap_ulong (undefined_shift ShlULong x n).

Definition shr_ulong (x n : Z) : Z :=
  if (0 <=? n) && (n <? 64) then Z.shiftr x n
  else wrap_ulong (undefined_shift ShrULong x n).

(** [x << n] on [int], for [x >= 0]. *)
Definition shl_int (x n : Z) : Z :=
  if (0 <=? n) && (n <? 32) && (0 <=? x) && (x * 2 ^ n <? 2 ^ 31) then x * 2 ^ n
  else wrap_int (undefined_shift ShlInt x n).

(** ** Address decomposition (lines 57-66 of [isInCache]) *)

Definition tag_of (cache : Cache) (address : Z) : Z :=
  let tagshift := wrap_ulong (wrap_int (cs cache + cb cache)) in
  shr_ulong address tagshift.

Definition set_of (cache : Cache) (address : Z) : Z :=
  let set :=
    shr_ulong
      (shl_ulong address (wrap_int (wrap_int (ADDR_BITS - cs cache) - cb cache)))
      (wrap_int (ADDR_BITS - cs cache)) in
  if cs cache =? 0 then 0 else set.

(** ** [isInCache] *)

Definition isInCache (address : Z) (cache : Cache) (op : ascii) (num : Z)
    (result : Result) : res (Cache * Result) :=
  let tag := tag_of cache address in
  let set := set_of cache address in
  match sets cache !! Z.to_nat set with
  | None => Crash (SetOutOfBounds set)
  | Some lines =>
    match access_lines (cE cache) lines tag op num result with
    | Crash f => Crash f
    | Ok (lines', result') =>
      Ok (with_sets cache (<[Z.to_nat set := lines']> (sets cache)), result')
    end
  end.

(** ** [incrementStats]

    [replay] is the [while] loop over the records that [fscanf] delivers;
    [linenum++] wraps as an [int] does on the target. *)
Fixpoint replay (trace : list Access) (stats : csim_stats_t) (cache : Cache)
    (linenum : Z) : res Run :=
  match trace with
  | [] => Ok (mkRun stats cache linenum)
  | a :: trace' =>
    let outcome := no_flags in
    match isInCache (t_address a) cache (t_instruction a) linenum outcome with
    | Crash f => Crash f
    | Ok (cache', outcome') =>
      replay trace' (count_outcome (cB cache') outcome' stats) cache'
        (wrap_int (linenum + 1))
    end
  end.

Definition incrementStats (trace : list Access) (stats : csim_stats_t)
    (cache : Cache) : res Run :=
  replay trace stats cache 0.

(** ** [main], from the parsed options to the statistics it prints

    [main] is the run in which every [malloc] returned a block. *)

Definition geometry (s E b : Z) : Cache :=
  mkCache (shl_int 1 s) E (shl_int 1 b) s b [].

Definition main (s E b : Z) (trace : list Access) : res Run :=
  incrementStats trace zero_stats (makeCache (geometry s E b)).

(** ** The run with an allocator that may return null pointers

    csim.c tests no result of [malloc].  [gives] tells of each block
    whether [malloc] returned it; the program stops at the first access
    through a pointer that is null. *)

(** The outer loop of [makeCache] (lines 132-140), [n] iterations from set
    [i] on.  Iteration [i] stores the pointer to the new lines in
    [cache->sets[i]], an access through [cache->sets]; its inner loop
    writes [lines[0]] when [E >= 1], an access through the pointer to the
    lines. *)
Fixpoint make_sets (gives : allocation → bool) (E : Z) (n i : nat) :
    res (list LineSet) :=
  match n with
  | O => Ok []
  | Datatypes.S n' =>
    if negb (gives SetArray) then Crash (NullPointer SetArray)
    else if (1 <=? E) && negb (gives (LineArray i))
    then Crash (NullPointer (LineArray i))
    else
      match make_sets gives E n' (Datatypes.S i) with
      | Crash f => Crash f
      | Ok ss => Ok (replicate (Z.to_nat E) empty_line :: ss)
      end
  end.

Definition makeCache_alloc (gives : allocation → bool) (cache : Cache) :
    res Cache :=
  match make_sets gives (cE cache) (Z.to_nat (cS cache)) 0 with
  | Crash f => Crash f
  | Ok ss => Ok (with_sets cache ss)
  end.

(** [incrementStats]: [outcome] is written at the head of every iteration
    (line 174) and not before. *)
Definition incrementStats_alloc (gives : allocation → bool)
    (trace : list Access) (stats : csim_stats_t) (cache : Cache) : res Run :=
  match trace with
  | [] => incrementStats trace stats cache
  | _ :: _ =>
    if gives OutcomeArray then incrementStats trace stats cache
    else Crash (NullPointer OutcomeArray)
  end.

(** [main]: the cache structure is read by [makeCache] at the latest (line
    131), the statistics are written at line 230. *)
Definition main_alloc (gives : allocation → bool) (s E b : Z)
    (trace : list Access) : res Run :=
  if negb (gives CacheStruct) then Crash (NullPointer CacheStruct)
  else
    match makeCache_alloc gives (geometry s E b) with
    | Crash f => Crash f
    | Ok cache =>
      if negb (gives StatsStruct) then Crash (NullPointer StatsStruct)
      else incrementStats_alloc gives trace zero_stats cache
    end.

(** An allocator that returns null for the lines of set 3 only. *)
Definition no_lines_for_set_3 (a : allocation) : bool :=
  match a with
  | LineArray 3 => false
  | _ => true
  end.

(** ** Predicates of the specification *)

(** The valid lines of a set come first in slot order. *)
Definition valid_prefix (lines : LineSet) : Prop :=
  ∀ i j li, lines !! i = Some li → validbit li = true → (j < i)%nat →
    ∃ lj, lines !! j = Some lj ∧ validbit lj = true.

(** No two valid lines of a set carry the same tag. *)
Definition distinct_tags (lines : LineSet) : Prop :=
  ∀ i j li lj, lines !! i = Some li → lines !! j = Some lj →
    validbit li = true → validbit lj = true → tagbits li = tagbits lj → i = j.

(** A line that was never filled is clean. *)
Definition invalid_clean (lines : LineSet) : Prop :=
  ∀ i l, lines !! i = Some l → validbit l = false → dirtybit l = false.

Definition is_dirty (l : Line) : bool := validbit l && dirtybit l.

Definition b2z (x : bool) : Z := if x then 1 else 0.

(** The number of valid dirty lines of a set, and of the whole cache. *)
Fixpoint dirty_count (lines : LineSet) : Z :=
  match lines with
  | [] => 0
  | l :: lines' => b2z (is_dirty l) + dirty_count lines'
  end.

Fixpoint dirty_total (ss : list LineSet) : Z :=
  match ss with
  | [] => 0
  | lines :: ss' => dirty_count lines + dirty_total ss'
  end.

(** Every set has [E] lines, as [makeCache] allocates them. *)
Definition well_shaped (cache : Cache) : Prop :=
  ∀ set lines, sets cache !! set = Some lines → length lines = Z.to_nat (cE cache).

(** The geometry invariant of the specification, with [S = 2^s]. *)
Definition valid_geometry (cache : Cache) : Prop :=
  1 ≤ cE cache ∧ 0 ≤ cs cache ∧ 0 ≤ cb cache ∧ cs cache + cb cache ≤ 64 ∧
  cS cache = 2 ^ cs cache.

Definition wf_cache (cache : Cache) : Prop :=
  valid_geometry cache ∧ length (sets cache) = Z.to_nat (cS cache) ∧ well_shaped cache.

(** The invariant of the cache between two accesses. *)
Definition cache_inv (cache : Cache) : Prop :=
  well_shaped cache ∧
  ∀ set lines, sets cache !! set = Some lines →
    valid_prefix lines ∧ distinct_tags lines ∧ invalid_clean lines.

(** Line [j] is valid and holds another tag: the scan goes past it. *)
Definition passed (lines : LineSet) (tag : Z) (j : nat) : Prop :=
  ∃ lj, lines !! j = Some lj ∧ validbit lj = true ∧ tagbits lj ≠ tag.

(** What the hit branch leaves in the line it found, and in the flags. *)
Definition hit_line (l : Line) (op : ascii) (num : Z) : Line :=
  if is_store op && negb (dirtybit l)
  then set_dirtybit (set_timestamp l num) true
  else set_timestamp l num.

Definition hit_result (l : Line) (op : ascii) (result : Result) : Result :=
  if is_store op && negb (dirtybit l) then set_r3 (set_r0 result) else set_r0 result.

(** What the code after the loop leaves in slot [index], and in the flags. *)
Definition placed_line (l : Line) (tag : Z) (op : ascii) (num : Z) (notFull : bool) : Line :=
  let l1 := set_tagbits (set_timestamp l num) tag in
  let l2 :=
    if notFull then set_validbit l1 true
    else if dirtybit l1 then set_dirtybit l1 false else l1 in
  if is_store op then set_dirtybit l2 true else l2.

Definition placed_result (l : Line) (op : ascii) (result : Result) (notFull : bool) : Result :=
  let r1 := set_r1 result in
  let r2 :=
    if notFull then r1
    else if dirtybit l then set_r4 (set_r2 r1) else set_r2 r1 in
  if is_store op then set_r3 r2 else r2.

(** Slot [k] holds the smallest [timestamp] of the set, and is the first
    slot to do so. *)
Definition oldest_first (lines : LineSet) (k : nat) : Prop :=
  ∃ lk, lines !! k = Some lk ∧
    ∀ j lj, lines !! j = Some lj →
      timestamp lk ≤ timestamp lj ∧ ((j < k)%nat → timestamp lk < timestamp lj).

(** The cache states that calls of [isInCache] reach from a cache that
    [makeCache] has just built. *)
Inductive reachable : Cache → Prop :=
| reachable_make (hdr : Cache) : reachable (makeCache hdr)
| reachable_access (c : Cache) (address : Z) (op : ascii) (num : Z)
    (result : Result) (c' : Cache) (result' : Result) :
    reachable c →
    isInCache address c op num result = Ok (c', result') →
    reachable c'.

(** The target set of the access is full and holds no line with the tag of
    the address. *)
Definition full_miss (cache : Cache) (address : Z) : Prop :=
  1 ≤ cE cache ∧
  ∃ lines, sets cache !! Z.to_nat (set_of cache address) = Some lines ∧
    length lines = Z.to_nat (cE cache) ∧
    ∀ i l, lines !! i = Some l →
      validbit l = true ∧ tagbits l ≠ tag_of cache address.

(** The access replaces slot [k] of the target set: the slot gets the tag
    of the address and the time of the access and stays valid, nothing
    else in the cache changes, and the eviction flag is raised. *)
Definition replaces (cache : Cache) (address : Z) (op : ascii) (num : Z)
    (k : nat) : Prop :=
  ∃ lines l' cache' result',
    sets cache !! Z.to_nat (set_of cache address) = Some lines ∧
    isInCache address cache op num no_flags = Ok (cache', result') ∧
    cache' = with_sets cache
      (<[Z.to_nat (set_of cache address) := <[k := l']> lines]> (sets cache)) ∧
    validbit l' = true ∧ tagbits l' = tag_of cache address ∧ timestamp l' = num ∧
    r_eviction result' = true.

(** The access replaces the first slot with the smallest [timestamp]. *)
Definition evicts_oldest (cache : Cache) (address : Z) (op : ascii) (num : Z) : Prop :=
  ∃ lines k,
    sets cache !! Z.to_nat (set_of cache address) = Some lines ∧
    oldest_first lines k ∧ replaces cache address op num k.

(** The decomposition of an address as the specification gives it. *)
Definition decomposes (cache : Cache) (address : Z) : Prop :=
  tag_of cache address = Z.shiftr address (cs cache + cb cache) ∧
  set_of cache address = Z.shiftr address (cb cache) mod 2 ^ cs cache ∧
  (cs cache = 0 → set_of cache address = 0).

(** Two traces with the same operations and addresses, record by record. *)
Definition same_accesses (t1 t2 : list Access) : Prop :=
  map (λ a, (t_instruction a, t_address a)) t1 =
  map (λ a, (t_instruction a, t_address a)) t2.

(** The block of [address] is in its set where the scan finds it: slot [k]
    is valid with the tag, among the [E] slots scanned, and the slots before
    it are valid with other tags. *)
Definition resident (cache : Cache) (address : Z) : Prop :=
  ∃ lines k l,
    sets cache !! Z.to_nat (set_of cache address) = Some lines ∧
    (k < Z.to_nat (cE cache))%nat ∧ lines !! k = Some l ∧
    validbit l = true ∧ tagbits l = tag_of cache address ∧
    ∀ j, (j < k)%nat → passed lines (tag_of cache address) j.

(** No record of [mid] goes to the set of [address]. *)
Definition other_sets (cache : Cache) (address : Z) (mid : list Access) : Prop :=
  Forall (λ m, set_of cache (t_address m) ≠ set_of cache address) mid.

(** Some line of the target set was last used before time [num]. *)
Definition older_line (cache : Cache) (address : Z) (num : Z) : Prop :=
  ∃ lines j lj,
    sets cache !! Z.to_nat (set_of cache address) = Some lines ∧
    lines !! j = Some lj ∧ timestamp lj < num.

(** Every valid line was last used at a time from 0 up to, not including,
    [num]. *)
Definition stamps_below (cache : Cache) (num : Z) : Prop :=
  ∀ set lines i l, sets cache !! set = Some lines → lines !! i = Some l →
    validbit l = true → 0 ≤ timestamp l < num.

(** ** Further predicates *)

(** The number of valid lines of a set, and of the whole cache. *)
Fixpoint valid_count (lines : LineSet) : Z :=
  match lines with
  | [] => 0
  | l :: lines' => b2z (validbit l) + valid_count lines'
  end.

Fixpoint valid_total (ss : list LineSet) : Z :=
  match ss with
  | [] => 0
  | lines :: ss' => valid_count lines + valid_total ss'
  end.

(** Every line that is not valid is as [makeCache] left it. *)
Definition pristine (cache : Cache) : Prop :=
  ∀ set lines i l, sets cache !! set = Some lines → lines !! i = Some l →
    validbit l = false → l = empty_line.

(** The block of [address] is in its set: some valid line has its tag. *)
Definition present (cache : Cache) (address : Z) : Prop :=
  ∃ lines i l,
    sets cache !! Z.to_nat (set_of cache address) = Some lines ∧
    lines !! i = Some l ∧ validbit l = true ∧ tagbits l = tag_of cache address.

(** The set of [address] has no line left that is not valid. *)
Definition set_full (cache : Cache) (address : Z) : Prop :=
  ∀ lines i l,
    sets cache !! Z.to_nat (set_of cache address) = Some lines →
    lines !! i = Some l → validbit l = true.

(** The tags of the records of [trace] that go to set [set], in order.
    [hdr] gives the geometry. *)
Definition tags_to (hdr : Cache) (set : nat) (trace : list Access) : list Z :=
  (λ a, tag_of hdr (t_address a)) <$>
    filter (λ a, Z.to_nat (set_of hdr (t_address a)) = set) trace.

(** Every valid line holds the tag of a record of [pre] that went to its
    set. *)
Definition tags_seen (hdr cache : Cache) (pre : list Access) : Prop :=
  ∀ set lines i l, sets cache !! set = Some lines → lines !! i = Some l →
    validbit l = true → tagbits l ∈ tags_to hdr set pre.

(** No line of the cache is dirty. *)
Definition all_clean (cache : Cache) : Prop :=
  ∀ set lines i l, sets cache !! set = Some lines → lines !! i = Some l →
    dirtybit l = false.

(** No record of the trace has the operation ['S']. *)
Definition no_store (trace : list Access) : Prop :=
  Forall (λ a, is_store (t_instruction a) = false) trace.

(** A line, a cache and the flags with what concerns dirtiness put aside,
    and a trace with every record turned into a load of the same address. *)
Definition clean_line (l : Line) : Line := set_dirtybit l false.

Definition clean_copy (cache : Cache) : Cache :=
  with_sets cache (fmap (M:=list) clean_line <$> sets cache).

Definition drop_dirty (r : Result) : Result :=
  mkResult (r_hit r) (r_miss r) (r_eviction r) false false.

Definition as_loads (trace : list Access) : list Access :=
  (λ a, mkAccess "L" (t_address a) 0) <$> trace.

Definition clean_exit (ex : loop_exit) : loop_exit :=
  match ex with
  | Returned lines result => Returned (clean_line <$> lines) (drop_dirty result)
  | AfterLoop notFull index => AfterLoop notFull index
  end.

(** Two runs with the same hits, misses and evictions, and caches that
    differ in dirty bits at most; or stopped by the same fault. *)
Definition same_traffic (x y : res Run) : Prop :=
  match x, y with
  | Ok r1, Ok r2 =>
    hits (run_stats r1) = hits (run_stats r2) ∧
    misses (run_stats r1) = misses (run_stats r2) ∧
    evictions (run_stats r1) = evictions (run_stats r2) ∧
    clean_copy (run_cache r1) = clean_copy (run_cache r2)
  | Crash f1, Crash f2 => f1 = f2
  | _, _ => False
  end.

(** No two valid lines of the cache were last used at the same time. *)
Definition stamps_distinct (cache : Cache) : Prop :=
  ∀ set1 set2 lines1 lines2 i j l1 l2,
    sets cache !! set1 = Some lines1 → sets cache !! set2 = Some lines2 →
    lines1 !! i = Some l1 → lines2 !! j = Some l2 →
    validbit l1 = true → validbit l2 = true →
    timestamp l1 = timestamp l2 →
    set1 = set2 ∧ i = j.

(** The block of [address] is where the scan finds it, in a line last used
    at time [num]. *)
Definition resident_since (cache : Cache) (address : Z) (num : Z) : Prop :=
  ∃ lines k l,
    sets cache !! Z.to_nat (set_of cache address) = Some lines ∧
    (k < Z.to_nat (cE cache))%nat ∧ lines !! k = Some l ∧
    validbit l = true ∧ tagbits l = tag_of cache address ∧
    timestamp l = num ∧
    ∀ j, (j < k)%nat → passed lines (tag_of cache address) j.

(** The number of ['S'] records of a trace. *)
Fixpoint count_stores (trace : list Access) : Z :=
  match trace with
  | [] => 0
  | a :: trace' => b2z (is_store (t_instruction a)) + count_stores trace'
  end.

(** ** The options of [main] (lines 208-225)

    One turn of the [while] loop: the letter [getopt] returned and the
    number [atoi] made of its argument.  The argument of [-t] is the path of
    the trace, which the cache does not hold. *)
Record Opt := mkOpt {
  o_letter : ascii;
  o_value : Z
}.

(** The [switch]: a letter that is none of its cases changes nothing. *)
Definition read_option (o : Opt) (cache : Cache) : Cache :=
  if Ascii.eqb (o_letter o) "s" then
    mkCache (shl_int 1 (o_value o)) (cE cache) (cB cache) (o_value o) (cb cache)
      (sets cache)
  else if Ascii.eqb (o_letter o) "E" then
    mkCache (cS cache) (o_value o) (cB cache) (cs cache) (cb cache) (sets cache)
  else if Ascii.eqb (o_letter o) "b" then
    mkCache (cS cache) (cE cache) (shl_int 1 (o_value o)) (cs cache) (o_value o)
      (sets cache)
  else cache.

(** The loop, from the cache as [malloc] returned it. *)
Fixpoint read_options (opts : list Opt) (cache : Cache) : Cache :=
  match opts with
  | [] => cache
  | o :: opts' => read_options opts' (read_option o cache)
  end.

(** The value given with the last option of one letter, if there is one. *)
Fixpoint last_value (letter : ascii) (opts : list Opt) : option Z :=
  match opts with
  | [] => None
  | o :: opts' =>
    match last_value letter opts' with
    | Some v => Some v
    | None => if Ascii.eqb (o_letter o) letter then Some (o_value o) else None
    end
  end.

(** ** The heap: what [makeCache] allocates and [freeCache] frees

    The blocks of the program: the [Cache] structure with its pointer to
    the array of sets, the array of sets with the pointer to the lines of
    each, and an array of lines.  A pointer that was not assigned yet
    holds nothing. *)
Inductive Block :=
| CacheBlock (vS vE vB vs vb : Z) (sets_at : option nat)
| SetsBlock (lines_at : list (option nat))
| LinesBlock (lines : LineSet).

(** A heap is a list of cells and a pointer is the index of one; [malloc]
    adds a cell at the end (it is taken to succeed) and [free] empties a
    cell.  Reading or freeing through a pointer whose cell is empty or
    missing has no meaning: the result is [None]. *)
Abbreviation Heap := (list (option Block)).


Definition load (p : nat) (heap : Heap) : option Block :=
  match heap !! p with
  | Some (Some b) => Some b
  | _ => None
  end.

Definition free (p : nat) (heap : Heap) : option Heap :=
  match load p heap with
  | Some _ => Some (<[p := None]> heap)
  | None => None
  end.



(** [freeCache] (lines 148-154).  [free_lines] is its loop. *)
Fixpoint free_lines (n i : nat) (cache : nat) (heap : Heap) : option Heap :=
  match n with
  | O => Some heap
  | Datatypes.S n' =>
    match load cache heap with
    | Some (CacheBlock _ _ _ _ _ (Some sets_at)) =>
      match load sets_at heap with
      | Some (SetsBlock ptrs) =>
        match ptrs !! i with
        | Some (Some lines_at) =>
          match free lines_at heap with
          | Some heap1 => free_lines n' (Datatypes.S i) cache heap1
          | None => None
          end
        | _ => None
        end
      | _ => None
      end
    | _ => None
    end
  end.

Definition freeCache (cache : nat) (heap : Heap) : option Heap :=
  match load cache heap with
  | Some (CacheBlock vS _ _ _ _ _) =>
    match free_lines (Z.to_nat vS) 0 cache heap with
    | Some heap1 =>
      match load cache heap1 with
      | Some (CacheBlock _ _ _ _ _ (Some sets_at)) =>
        match free sets_at heap1 with
        | Some heap2 => free cache heap2
        | None => None
        end
      | _ => None
      end
    | None => None
    end
  | _ => None
  end.

(** The cells that hold the sets [ss] of a cache, allocated after the
    cells [before]: the array of sets first, then the lines of each set. *)
Definition laid_out (before : Heap) (ss : list LineSet) : Heap :=
  before ++
  Some (SetsBlock (Some <$> seq (Datatypes.S (length before)) (length ss))) ::
  (Some ∘ LinesBlock <$> ss).

(** * Properties *)

(** ** The scan *)

Lemma scan_exit n lines tag op num result i index oldest ex :
  scan n lines tag op num result i index oldest = Ok ex →
  match ex with
  | Returned lines' result' =>
    ∃ k l, (i ≤ k < i + n)%nat ∧ lines !! k = Some l ∧
      validbit l = true ∧ tagbits l = tag ∧
      (∀ j, (i ≤ j < k)%nat → passed lines tag j) ∧
      lines' = <[k := hit_line l op num]> lines ∧
      result' = hit_result l op result
  | AfterLoop true k =>
    (i ≤ k < i + n)%nat ∧
    (∃ l, lines !! k = Some l ∧ validbit l = false) ∧
    (∀ j, (i ≤ j < k)%nat → passed lines tag j)
  | AfterLoop false k =>
    (∀ j, (i ≤ j < i + n)%nat → passed lines tag j) ∧
    (k = index ∨ (i ≤ k < i + n)%nat)
  end.
Proof.
  revert i index oldest ex.
  induction n as [|n IH]; intros i index oldest ex; simpl.
  - intros [= <-]. split; [lia | by left].
  - destruct (lines !! i) as [l|] eqn:Hl; [|done].
    destruct (tagbits l =? tag) eqn:Htag; simpl.
    + apply Z.eqb_eq in Htag.
      destruct (validbit l) eqn:Hv; simpl.
      * assert (Hhit : ∀ lines' result',
          lines' = <[i := hit_line l op num]> lines →
          result' = hit_result l op result →
          ∃ k l0, (i ≤ k < i + Datatypes.S n)%nat ∧ lines !! k = Some l0 ∧
            validbit l0 = true ∧ tagbits l0 = tag ∧
            (∀ j, (i ≤ j < k)%nat → passed lines tag j) ∧
            lines' = <[k := hit_line l0 op num]> lines ∧
            result' = hit_result l0 op result).
        { intros ?? -> ->. exists i, l. repeat split; auto; lia. }
        unfold hit_line, hit_result in Hhit.
        destruct (is_store op && negb (dirtybit l)) eqn:Hst; simpl;
          intros [= <-]; by apply Hhit.
      * intros [= <-]. split; [lia|]. split; [eauto|]. intros j ?; lia.
    + apply Z.eqb_neq in Htag.
      destruct (validbit l) eqn:Hv; simpl.
      * assert (Hi : passed lines tag i) by (exists l; auto).
        assert (Hstep : ∀ index' oldest' ex',
          scan n lines tag op num result (Datatypes.S i) index' oldest' = Ok ex' →
          (index' = index ∨ index' = i) →
          match ex' with
          | Returned lines' result' =>
            ∃ k l0, (i ≤ k < i + Datatypes.S n)%nat ∧ lines !! k = Some l0 ∧
              validbit l0 = true ∧ tagbits l0 = tag ∧
              (∀ j, (i ≤ j < k)%nat → passed lines tag j) ∧
              lines' = <[k := hit_line l0 op num]> lines ∧
              result' = hit_result l0 op result
          | AfterLoop true k =>
            (i ≤ k < i + Datatypes.S n)%nat ∧
            (∃ l0, lines !! k = Some l0 ∧ validbit l0 = false) ∧
            (∀ j, (i ≤ j < k)%nat → passed lines tag j)
          | AfterLoop false k =>
            (∀ j, (i ≤ j < i + Datatypes.S n)%nat → passed lines tag j) ∧
            (k = index ∨ (i ≤ k < i + Datatypes.S n)%nat)
          end).
        { intros index' oldest' ex' Hs Hidx. apply IH in Hs.
          assert (Hext : ∀ k, (∀ j, (Datatypes.S i ≤ j < k)%nat → passed lines tag j) →
                              ∀ j, (i ≤ j < k)%nat → passed lines tag j).
          { intros k Hk j Hj. destruct (decide (j = i)) as [->|]; [done|].
            apply Hk; lia. }
          destruct ex' as [lines' result'|[] k].
          - destruct Hs as (k & l0 & ? & ? & ? & ? & ? & ? & ?).
            exists k, l0. split_and!; eauto; lia.
          - destruct Hs as (? & ? & ?). split_and!; eauto; lia.
          - destruct Hs as (Hall & Hk). split; [by apply (Hext (i + Datatypes.S n)%nat);
              intros j ?; apply Hall; lia|].
            destruct Hk as [->|]; [|right; lia].
            destruct Hidx as [->| ->]; [by left | right; lia]. }
        destruct (timestamp l <? oldest); intros Hs;
          eapply Hstep; eauto.
      * intros [= <-]. split; [lia|]. split; [eauto|]. intros j ?; lia.
Qed.

(** When the loop runs to its end, [index] is the first slot whose
    timestamp is the smallest of those below the initial [oldest], and is
    left as it was when no timestamp is below it. *)
Lemma scan_oldest n lines tag op num result i index oldest k :
  scan n lines tag op num result i index oldest = Ok (AfterLoop false k) →
  (k = index ∧
   ∀ j lj, (i ≤ j < i + n)%nat → lines !! j = Some lj → oldest ≤ timestamp lj)
  ∨ (∃ lk, (i ≤ k < i + n)%nat ∧ lines !! k = Some lk ∧ timestamp lk < oldest ∧
       ∀ j lj, (i ≤ j < i + n)%nat → lines !! j = Some lj →
         timestamp lk ≤ timestamp lj ∧ ((j < k)%nat → timestamp lk < timestamp lj)).
Proof.
  revert i index oldest.
  induction n as [|n IH]; intros i index oldest; simpl.
  - intros [= <-]. left. split; [done|]. intros; lia.
  - destruct (lines !! i) as [l|] eqn:Hl; [|done].
    destruct ((tagbits l =? tag) && validbit l).
    { by destruct (is_store op && _). }
    destruct (negb (validbit l)); [done|].
    destruct (timestamp l <? oldest) eqn:Hlt; intros Hs; apply IH in Hs.
    + apply Z.ltb_lt in Hlt. right.
      destruct Hs as [[-> Hall]|(lk & Hk & Hlk & Hold & Hall)].
      * exists l. split_and!; [lia..|done|done|].
        intros j lj Hj Hlj. destruct (decide (j = i)) as [->|Hne].
        -- rewrite Hl in Hlj. injection Hlj as <-. lia.
        -- pose proof (Hall j lj ltac:(lia) Hlj). lia.
      * exists lk. split_and!; [lia..|done|lia|].
        intros j lj Hj Hlj. destruct (decide (j = i)) as [->|Hne].
        -- rewrite Hl in Hlj. injection Hlj as <-. lia.
        -- apply Hall; [lia|done].
    + apply Z.ltb_ge in Hlt.
      destruct Hs as [[-> Hall]|(lk & Hk & Hlk & Hold & Hall)].
      * left. split; [done|].
        intros j lj Hj Hlj. destruct (decide (j = i)) as [->|Hne].
        -- rewrite Hl in Hlj. by injection Hlj as <-.
        -- apply (Hall j); [lia|done].
      * right. exists lk. split_and!; [lia..|done|done|].
        intros j lj Hj Hlj. destruct (decide (j = i)) as [->|Hne].
        -- rewrite Hl in Hlj. injection Hlj as <-. lia.
        -- apply Hall; [lia|done].
Qed.

(** The scan stops at the first valid line with the tag when only valid
    lines with other tags come before it. *)
Lemma scan_finds n lines tag op num result i index oldest k l :
  lines !! k = Some l → validbit l = true → tagbits l = tag →
  (∀ j, (i ≤ j < k)%nat → passed lines tag j) →
  (i ≤ k < i + n)%nat →
  scan n lines tag op num result i index oldest =
    Ok (Returned (<[k := hit_line l op num]> lines) (hit_result l op result)).
Proof.
  intros Hk Hv Ht. revert i index oldest.
  induction n as [|n IH]; intros i index oldest Hpass Hik; [lia|]. simpl.
  destruct (decide (i = k)) as [->|Hne].
  - rewrite Hk, Ht, Z.eqb_refl, Hv. simpl.
    unfold hit_line, hit_result. by destruct (is_store op && _).
  - destruct (Hpass i ltac:(lia)) as (li & Hli & Hvi & Hti).
    rewrite Hli, Hvi, (proj2 (Z.eqb_neq _ _) Hti). simpl.
    destruct (timestamp li <? oldest); apply IH; try lia;
      intros j ?; apply Hpass; lia.
Qed.

(** No read of the scan is out of bounds when the set has the lines the
    loop visits. *)
Lemma scan_total n lines tag op num result i index oldest :
  (i + n ≤ length lines)%nat →
  ∃ ex, scan n lines tag op num result i index oldest = Ok ex.
Proof.
  revert i index oldest.
  induction n as [|n IH]; intros i index oldest Hlen; simpl; [eauto|].
  destruct (lookup_lt_is_Some_2 lines i ltac:(lia)) as [l ->].
  destruct ((tagbits l =? tag) && validbit l).
  { destruct (is_store op && _); eauto. }
  destruct (negb (validbit l)); [eauto|].
  destruct (timestamp l <? oldest); apply IH; lia.
Qed.

(** ** The code after the loop *)

Lemma place_eq lines tag op num result notFull index l :
  lines !! index = Some l →
  place lines tag op num result notFull index =
    Ok (<[index := placed_line l tag op num notFull]> lines,
        placed_result l op result notFull).
Proof.
  intros Hl. unfold place, placed_line, placed_result. rewrite Hl. simpl.
  destruct notFull, (dirtybit l), (is_store op); reflexivity.
Qed.

(** ** One access, seen from the target set *)

Lemma access_lines_cases E lines tag op num result lines' result' :
  access_lines E lines tag op num result = Ok (lines', result') →
  (∃ k l, (k < Z.to_nat E)%nat ∧ lines !! k = Some l ∧
     validbit l = true ∧ tagbits l = tag ∧
     (∀ j, (j < k)%nat → passed lines tag j) ∧
     lines' = <[k := hit_line l op num]> lines ∧
     result' = hit_result l op result)
  ∨ (∃ k l, (k < Z.to_nat E)%nat ∧ lines !! k = Some l ∧
     validbit l = false ∧
     (∀ j, (j < k)%nat → passed lines tag j) ∧
     lines' = <[k := placed_line l tag op num true]> lines ∧
     result' = placed_result l op result true)
  ∨ (∃ k l, lines !! k = Some l ∧
     (∀ j, (j < Z.to_nat E)%nat → passed lines tag j) ∧
     (k = 0%nat ∨ (k < Z.to_nat E)%nat) ∧
     lines' = <[k := placed_line l tag op num false]> lines ∧
     result' = placed_result l op result false).
Proof.
  unfold access_lines.
  destruct (scan _ _ _ _ _ _ _ _ _) as [ex|] eqn:Hs; [|done].
  apply scan_exit in Hs.
  destruct ex as [lines1 result1|[] k].
  - intros [= <- <-]. left.
    destruct Hs as (k & l & ? & ? & ? & ? & Hp & ? & ?).
    exists k, l. split_and!; auto; [lia|]. intros j ?; apply Hp; lia.
  - destruct Hs as (? & (l & Hl & ?) & Hp).
    rewrite (place_eq _ _ _ _ _ _ _ _ Hl). intros [= <- <-]. right; left.
    exists k, l. split_and!; auto; [lia|]. intros j ?; apply Hp; lia.
  - destruct Hs as (Hp & Hk).
    destruct (lines !! k) as [l|] eqn:Hl; [|unfold place; by rewrite Hl].
    rewrite (place_eq _ _ _ _ _ _ _ _ Hl). intros [= <- <-]. right; right.
    exists k, l. split_and!; auto; [intros j ?; apply Hp; lia | lia].
Qed.

Lemma access_lines_length E lines tag op num result lines' result' :
  access_lines E lines tag op num result = Ok (lines', result') →
  length lines' = length lines.
Proof.
  intros H. apply access_lines_cases in H.
  destruct H as [(k & l & H)|[(k & l & H)|(k & l & H)]];
    destruct_and!; subst; apply length_insert.
Qed.

(** With the [E] lines the loop visits and a slot to place a block in,
    an access completes. *)
Lemma access_lines_total E lines tag op num result :
  1 ≤ E → length lines = Z.to_nat E →
  ∃ lines' result', access_lines E lines tag op num result = Ok (lines', result').
Proof.
  intros HE Hlen. unfold access_lines.
  destruct (scan_total (Z.to_nat E) lines tag op num result 0 0 num) as [ex Hs];
    [lia|].
  rewrite Hs. pose proof (scan_exit _ _ _ _ _ _ _ _ _ _ Hs) as Hex.
  destruct ex as [lines1 result1|notFull k]; [eauto|].
  assert (k < length lines)%nat as Hk.
  { destruct notFull; [destruct Hex as (? & _); lia|].
    destruct Hex as (_ & [->|?]); lia. }
  destruct (lookup_lt_is_Some_2 lines k Hk) as [l Hl].
  rewrite (place_eq _ _ _ _ _ _ _ _ Hl). eauto.
Qed.

(** ** Invariants of one set *)

Lemma hit_line_validbit l op num : validbit (hit_line l op num) = validbit l.
Proof. unfold hit_line. by destruct (is_store op && _). Qed.

Lemma hit_line_tagbits l op num : tagbits (hit_line l op num) = tagbits l.
Proof. unfold hit_line. by destruct (is_store op && _). Qed.

Lemma hit_line_timestamp l op num : timestamp (hit_line l op num) = num.
Proof. unfold hit_line. by destruct (is_store op && _). Qed.

Lemma placed_line_validbit l tag op num notFull :
  validbit (placed_line l tag op num notFull) = notFull || validbit l.
Proof.
  unfold placed_line. simpl. by destruct notFull, (dirtybit l), (is_store op).
Qed.

Lemma placed_line_tagbits l tag op num notFull :
  tagbits (placed_line l tag op num notFull) = tag.
Proof.
  unfold placed_line. simpl. by destruct notFull, (dirtybit l), (is_store op).
Qed.

Lemma placed_line_timestamp l tag op num notFull :
  timestamp (placed_line l tag op num notFull) = num.
Proof.
  unfold placed_line. simpl. by destruct notFull, (dirtybit l), (is_store op).
Qed.

Lemma placed_line_dirtybit l tag op num notFull :
  dirtybit (placed_line l tag op num notFull) =
    is_store op || (notFull && dirtybit l).
Proof.
  unfold placed_line. simpl.
  destruct notFull, (dirtybit l) eqn:Hd, (is_store op); simpl; by rewrite ?Hd.
Qed.

Lemma valid_prefix_insert_same (lines : LineSet) k l l' :
  lines !! k = Some l → validbit l' = validbit l →
  valid_prefix lines → valid_prefix (<[k := l']> lines).
Proof.
  intros Hk Hv Hpre i j li Hi Hvi Hji.
  assert (∃ li0, lines !! i = Some li0 ∧ validbit li0 = true) as (li0 & Hi0 & Hvi0).
  { apply list_lookup_insert_Some in Hi as [(-> & <- & _)|(_ & Hi)]; [|eauto].
    exists l. split; [done | congruence]. }
  destruct (Hpre i j li0 Hi0 Hvi0 Hji) as (lj & Hj & Hvj).
  destruct (decide (k = j)) as [->|Hne].
  - exists l'. split; [|congruence].
    apply list_lookup_insert_eq. by eapply lookup_lt_Some.
  - exists lj. by rewrite list_lookup_insert_ne.
Qed.

Lemma valid_prefix_insert_fill (lines : LineSet) tag k l' :
  (∀ j, (j < k)%nat → passed lines tag j) → validbit l' = true →
  valid_prefix lines → valid_prefix (<[k := l']> lines).
Proof.
  intros Hp Hv Hpre i j li Hi Hvi Hji.
  assert (∃ lj, lines !! j = Some lj ∧ validbit lj = true) as (lj & Hj & Hvj).
  { apply list_lookup_insert_Some in Hi as [(-> & <- & _)|(_ & Hi)].
    - destruct (Hp j Hji) as (lj & ? & ? & _). eauto.
    - eapply Hpre; eauto. }
  destruct (decide (k = j)) as [->|Hne].
  - exists l'. split; [|done].
    apply list_lookup_insert_eq. by eapply lookup_lt_Some.
  - exists lj. by rewrite list_lookup_insert_ne.
Qed.

Lemma distinct_tags_insert_same (lines : LineSet) k l l' :
  lines !! k = Some l → validbit l' = validbit l → tagbits l' = tagbits l →
  distinct_tags lines → distinct_tags (<[k := l']> lines).
Proof.
  intros Hk Hv Ht Hd i j li lj Hi Hj Hvi Hvj Htag.
  assert (∀ x lx, <[k := l']> lines !! x = Some lx →
    ∃ lx0, lines !! x = Some lx0 ∧ validbit lx0 = validbit lx ∧
      tagbits lx0 = tagbits lx) as Hback.
  { intros x lx Hx.
    apply list_lookup_insert_Some in Hx as [(-> & <- & _)|(_ & Hx)]; eauto. }
  destruct (Hback i li Hi) as (li0 & ? & ? & ?).
  destruct (Hback j lj Hj) as (lj0 & ? & ? & ?).
  apply (Hd i j li0 lj0); congruence.
Qed.

Lemma distinct_tags_insert_new (lines : LineSet) k l' :
  (∀ j lj, lines !! j = Some lj → j ≠ k → validbit lj = true →
     tagbits lj ≠ tagbits l') →
  distinct_tags lines → distinct_tags (<[k := l']> lines).
Proof.
  intros Hnew Hd i j li lj Hi Hj Hvi Hvj Htag.
  apply list_lookup_insert_Some in Hi as [(-> & <- & _)|(Hik & Hi)];
    apply list_lookup_insert_Some in Hj as [(-> & <- & _)|(Hjk & Hj)]; auto.
  - exfalso. apply (Hnew j lj); auto.
  - exfalso. apply (Hnew i li); auto.
  - by apply (Hd i j li lj).
Qed.

Lemma access_lines_valid_prefix E lines tag op num result lines' result' :
  access_lines E lines tag op num result = Ok (lines', result') →
  length lines = Z.to_nat E →
  valid_prefix lines → valid_prefix lines'.
Proof.
  intros H Hlen Hpre. apply access_lines_cases in H.
  destruct H as [(k & l & Hk & Hl & Hv & Ht & Hp & -> & ->)|
                 [(k & l & Hk & Hl & Hv & Hp & -> & ->)|
                  (k & l & Hl & Hp & Hk & -> & ->)]].
  - eapply valid_prefix_insert_same; eauto using hit_line_validbit.
  - eapply valid_prefix_insert_fill; eauto. by rewrite placed_line_validbit.
  - eapply valid_prefix_insert_same; eauto. by rewrite placed_line_validbit.
Qed.

Lemma access_lines_distinct_tags E lines tag op num result lines' result' :
  access_lines E lines tag op num result = Ok (lines', result') →
  length lines = Z.to_nat E →
  valid_prefix lines → distinct_tags lines → distinct_tags lines'.
Proof.
  intros H Hlen Hpre Hd. apply access_lines_cases in H.
  destruct H as [(k & l & Hk & Hl & Hv & Ht & Hp & -> & ->)|
                 [(k & l & Hk & Hl & Hv & Hp & -> & ->)|
                  (k & l & Hl & Hp & Hk & -> & ->)]].
  - eapply distinct_tags_insert_same;
      eauto using hit_line_validbit, hit_line_tagbits.
  - apply distinct_tags_insert_new; [|done].
    intros j lj Hj Hne Hvj. rewrite placed_line_tagbits.
    destruct (decide (j < k)%nat) as [Hlt|Hge].
    + destruct (Hp j Hlt) as (lj' & Hj' & _ & ?). congruence.
    + destruct (Hpre j k lj Hj Hvj ltac:(lia)) as (lk & ? & ?). congruence.
  - apply distinct_tags_insert_new; [|done].
    intros j lj Hj Hne Hvj. rewrite placed_line_tagbits.
    destruct (Hp j) as (lj' & Hj' & _ & ?); [|congruence].
    apply lookup_lt_Some in Hj. lia.
Qed.

Lemma full_slot_valid E (lines : LineSet) tag k l :
  length lines = Z.to_nat E →
  (∀ j, (j < Z.to_nat E)%nat → passed lines tag j) →
  lines !! k = Some l →
  validbit l = true ∧ tagbits l ≠ tag.
Proof.
  intros Hlen Hp Hl.
  destruct (Hp k) as (l0 & Hl0 & ? & ?).
  - apply lookup_lt_Some in Hl. lia.
  - rewrite Hl in Hl0. by injection Hl0 as <-.
Qed.

Lemma access_lines_invalid_clean E lines tag op num result lines' result' :
  access_lines E lines tag op num result = Ok (lines', result') →
  length lines = Z.to_nat E →
  invalid_clean lines → invalid_clean lines'.
Proof.
  intros H Hlen Hc. apply access_lines_cases in H.
  assert (∀ k l', validbit l' = true → invalid_clean (<[k := l']> lines)) as Hins.
  { intros k l' Hv i l Hi Hvi.
    apply list_lookup_insert_Some in Hi as [(-> & <- & _)|(_ & Hi)];
      [congruence | eauto]. }
  destruct H as [(k & l & Hk & Hl & Hv & Ht & Hp & -> & ->)|
                 [(k & l & Hk & Hl & Hv & Hp & -> & ->)|
                  (k & l & Hl & Hp & Hk & -> & ->)]];
    apply Hins.
  - by rewrite hit_line_validbit.
  - by rewrite placed_line_validbit.
  - rewrite placed_line_validbit. simpl.
    by destruct (full_slot_valid E lines tag k l).
Qed.

Lemma dirty_count_insert (lines : LineSet) k l l' :
  lines !! k = Some l →
  dirty_count (<[k := l']> lines) =
    dirty_count lines - b2z (is_dirty l) + b2z (is_dirty l').
Proof.
  revert k. induction lines as [|x lines IH]; intros [|k] Hk; try done; simpl in *.
  - injection Hk as ->. lia.
  - rewrite (IH k Hk). lia.
Qed.

Lemma dirty_count_nonneg (lines : LineSet) : 0 ≤ dirty_count lines.
Proof.
  induction lines as [|x lines IH]; simpl; [lia|].
  unfold b2z. destruct (is_dirty x); lia.
Qed.

Lemma dirty_total_nonneg (ss : list LineSet) : 0 ≤ dirty_total ss.
Proof.
  induction ss as [|x ss IH]; simpl; [lia|].
  pose proof (dirty_count_nonneg x). lia.
Qed.

Lemma dirty_total_insert (ss : list LineSet) set lines lines' :
  ss !! set = Some lines →
  dirty_total (<[set := lines']> ss) =
    dirty_total ss - dirty_count lines + dirty_count lines'.
Proof.
  revert set. induction ss as [|x ss IH]; intros [|set] Hs; try done; simpl in *.
  - injection Hs as ->. lia.
  - rewrite (IH set Hs). lia.
Qed.

(** The flags an access raises tell how the number of dirty lines of the
    set changed. *)
Lemma access_lines_dirty_count E lines tag op num lines' result' :
  access_lines E lines tag op num no_flags = Ok (lines', result') →
  length lines = Z.to_nat E →
  invalid_clean lines →
  dirty_count lines' =
    dirty_count lines + b2z (r_dirty result') - b2z (r_dirty_eviction result').
Proof.
  intros H Hlen Hc. apply access_lines_cases in H.
  destruct H as [(k & l & Hk & Hl & Hv & Ht & Hp & -> & ->)|
                 [(k & l & Hk & Hl & Hv & Hp & -> & ->)|
                  (k & l & Hl & Hp & Hk & -> & ->)]];
    rewrite (dirty_count_insert _ _ _ _ Hl).
  - unfold hit_line, hit_result, is_dirty.
    destruct (is_store op), (dirtybit l) eqn:Hd; simpl; rewrite Hv, ?Hd; simpl; lia.
  - pose proof (Hc k l Hl Hv) as Hd.
    unfold placed_line, placed_result, is_dirty. rewrite Hv, Hd. simpl.
    destruct (is_store op); simpl; rewrite ?Hd; simpl; lia.
  - destruct (full_slot_valid E lines tag k l) as [Hv _]; auto.
    unfold placed_line, placed_result, is_dirty. simpl.
    destruct (is_store op), (dirtybit l) eqn:Hd; simpl; rewrite Hv, ?Hd; simpl; lia.
Qed.

(** Starting from the flags all lowered, an access raises exactly one of
    the hit and miss flags, and the eviction flag only with the miss. *)
Lemma access_lines_flags E lines tag op num lines' result' :
  access_lines E lines tag op num no_flags = Ok (lines', result') →
  r_hit result' = negb (r_miss result') ∧
  (r_eviction result' = true → r_miss result' = true).
Proof.
  intros H. apply access_lines_cases in H.
  destruct H as [(k & l & Hk & Hl & Hv & Ht & Hp & -> & ->)|
                 [(k & l & Hk & Hl & Hv & Hp & -> & ->)|
                  (k & l & Hl & Hp & Hk & -> & ->)]].
  - unfold hit_result. by destruct (is_store op && _).
  - unfold placed_result. by destruct (is_store op).
  - unfold placed_result. by destruct (is_store op), (dirtybit l).
Qed.

(** ** One access, seen from the cache *)

Lemma isInCache_Ok address c op num result c' result' :
  isInCache address c op num result = Ok (c', result') →
  ∃ lines lines',
    sets c !! Z.to_nat (set_of c address) = Some lines ∧
    access_lines (cE c) lines (tag_of c address) op num result = Ok (lines', result') ∧
    c' = with_sets c (<[Z.to_nat (set_of c address) := lines']> (sets c)).
Proof.
  unfold isInCache.
  destruct (sets c !! _) as [lines|] eqn:Hset; [|done].
  destruct (access_lines _ _ _ _ _ _) as [[lines' r]|] eqn:Hacc; [|done].
  intros [= <- <-]. eauto.
Qed.

Lemma isInCache_geometry address c op num result c' result' :
  isInCache address c op num result = Ok (c', result') →
  cS c' = cS c ∧ cE c' = cE c ∧ cB c' = cB c ∧ cs c' = cs c ∧ cb c' = cb c ∧
  length (sets c') = length (sets c).
Proof.
  intros H. apply isInCache_Ok in H as (lines & lines' & _ & _ & ->).
  simpl. by rewrite length_insert.
Qed.

Lemma makeCache_inv hdr : cache_inv (makeCache hdr).
Proof.
  split.
  - intros set lines Hl. simpl in *.
    apply lookup_replicate in Hl as [-> _]. by rewrite length_replicate.
  - intros set lines Hl. simpl in *. apply lookup_replicate in Hl as [-> _].
    split_and!.
    + intros i j li Hi Hv. by apply lookup_replicate in Hi as [-> _].
    + intros i j li lj Hi _ Hv. by apply lookup_replicate in Hi as [-> _].
    + intros i l Hi _. by apply lookup_replicate in Hi as [-> _].
Qed.

Lemma isInCache_inv address c op num result c' result' :
  isInCache address c op num result = Ok (c', result') →
  cache_inv c → cache_inv c'.
Proof.
  intros H [Hshape Hinv].
  apply isInCache_Ok in H as (lines & lines' & Hset & Hacc & ->).
  pose proof (Hshape _ _ Hset) as Hlen.
  destruct (Hinv _ _ Hset) as (Hpre & Hd & Hc).
  split.
  - intros set ls Hls. simpl in *.
    apply list_lookup_insert_Some in Hls as [(_ & <- & _)|(_ & Hls)]; [|eauto].
    by rewrite (access_lines_length _ _ _ _ _ _ _ _ Hacc).
  - intros set ls Hls. simpl in *.
    apply list_lookup_insert_Some in Hls as [(_ & <- & _)|(_ & Hls)]; [|eauto].
    split_and!.
    + eapply access_lines_valid_prefix; eauto.
    + eapply access_lines_distinct_tags; eauto.
    + eapply access_lines_invalid_clean; eauto.
Qed.

Lemma reachable_inv c : reachable c → cache_inv c.
Proof.
  induction 1 as [hdr|c address op num result c' result' _ IH H].
  - apply makeCache_inv.
  - eapply isInCache_inv; eauto.
Qed.

(** ** Address decomposition *)

Lemma wrap_int_small x : - 2 ^ 31 ≤ x < 2 ^ 31 → wrap_int x = x.
Proof. intros H. unfold wrap_int. rewrite Z.mod_small; lia. Qed.

Lemma wrap_ulong_small x : 0 ≤ x < 2 ^ 64 → wrap_ulong x = x.
Proof. intros H. unfold wrap_ulong. by rewrite Z.mod_small. Qed.

Lemma shr_ulong_defined x n : 0 ≤ n < 64 → shr_ulong x n = Z.shiftr x n.
Proof.
  intros H. unfold shr_ulong.
  by rewrite (proj2 (Z.leb_le _ _)), (proj2 (Z.ltb_lt _ _)) by lia.
Qed.

Lemma shl_ulong_defined x n :
  0 ≤ n < 64 → shl_ulong x n = Z.shiftl x n mod 2 ^ 64.
Proof.
  intros H. unfold shl_ulong, wrap_ulong.
  by rewrite (proj2 (Z.leb_le _ _)), (proj2 (Z.ltb_lt _ _)) by lia.
Qed.

Lemma shl_int_defined n : 0 ≤ n < 31 → shl_int 1 n = 2 ^ n.
Proof.
  intros H. unfold shl_int.
  assert (2 ^ n < 2 ^ 31) by (apply Z.pow_lt_mono_r; lia).
  rewrite (proj2 (Z.leb_le 0 n)), (proj2 (Z.ltb_lt n 32)) by lia. simpl.
  rewrite (proj2 (Z.ltb_lt _ _)) by lia. lia.
Qed.

Lemma tag_of_defined c address :
  0 ≤ cs c → 0 ≤ cb c → cs c + cb c < 64 →
  tag_of c address = Z.shiftr address (cs c + cb c).
Proof.
  intros Hs Hb Hsb. unfold tag_of.
  rewrite wrap_int_small, wrap_ulong_small by lia.
  apply shr_ulong_defined. lia.
Qed.

(** The two shifts that isolate the set index, when both are defined. *)
Lemma set_bits address s b :
  0 < s → 0 ≤ b → s + b ≤ 64 →
  Z.shiftr (Z.shiftl address (64 - s - b) mod 2 ^ 64) (64 - s) =
    Z.shiftr address b mod 2 ^ s.
Proof.
  intros Hs Hb Hsb. apply Z.bits_inj'. intros n Hn.
  rewrite Z.shiftr_spec by lia.
  destruct (decide (n < s)) as [Hlt|Hge].
  - rewrite Z.mod_pow2_bits_low by lia.
    rewrite Z.mod_pow2_bits_low by lia.
    rewrite Z.shiftl_spec, Z.shiftr_spec by lia. f_equal. lia.
  - rewrite Z.mod_pow2_bits_high by lia.
    by rewrite Z.mod_pow2_bits_high by lia.
Qed.

Lemma set_of_defined c address :
  0 < cs c → 0 ≤ cb c → cs c + cb c ≤ 64 →
  set_of c address = Z.shiftr address (cb c) mod 2 ^ cs c.
Proof.
  intros Hs Hb Hsb. unfold set_of, ADDR_BITS.
  rewrite (proj2 (Z.eqb_neq _ _)) by lia.
  rewrite (wrap_int_small (64 - cs c)) by lia.
  rewrite wrap_int_small by lia.
  rewrite shl_ulong_defined, shr_ulong_defined by lia.
  by apply set_bits.
Qed.

Lemma set_of_zero c address : cs c = 0 → set_of c address = 0.
Proof. intros Hs. unfold set_of. by rewrite Hs. Qed.

Lemma set_of_range c address :
  0 ≤ cs c → 0 ≤ cb c → cs c + cb c ≤ 64 →
  0 ≤ set_of c address < 2 ^ cs c.
Proof.
  intros Hs Hb Hsb. destruct (decide (cs c = 0)) as [H0|Hne].
  - rewrite set_of_zero, H0 by done. simpl. lia.
  - rewrite set_of_defined by lia. apply Z.mod_pos_bound. lia.
Qed.

(** ** Well-formed caches: no access is out of bounds *)

Lemma makeCache_wf hdr : valid_geometry hdr → wf_cache (makeCache hdr).
Proof.
  intros Hg. split_and!; [done|..].
  - simpl. by rewrite length_replicate.
  - apply makeCache_inv.
Qed.

Lemma isInCache_total address c op num result :
  wf_cache c → ∃ c' result', isInCache address c op num result = Ok (c', result').
Proof.
  intros ((HE & Hs & Hb & Hsb & HS) & Hlen & Hshape).
  pose proof (set_of_range c address Hs Hb Hsb) as Hset.
  destruct (lookup_lt_is_Some_2 (sets c) (Z.to_nat (set_of c address)))
    as [lines Hlines]; [lia|].
  destruct (access_lines_total (cE c) lines (tag_of c address) op num result)
    as (lines' & result' & Hacc); [done|by eapply Hshape|].
  unfold isInCache. rewrite Hlines, Hacc. eauto.
Qed.

Lemma isInCache_wf address c op num result c' result' :
  isInCache address c op num result = Ok (c', result') →
  wf_cache c → wf_cache c'.
Proof.
  intros H (Hg & Hlen & Hshape).
  pose proof (isInCache_geometry _ _ _ _ _ _ _ H) as (HS & HE & HB & Hs & Hb & Hl).
  apply isInCache_Ok in H as (lines & lines' & Hset & Hacc & ->).
  split_and!; [done|by rewrite Hl|].
  intros set ls Hls. simpl in *.
  apply list_lookup_insert_Some in Hls as [(_ & <- & _)|(_ & Hls)]; [|eauto].
  rewrite (access_lines_length _ _ _ _ _ _ _ _ Hacc). eauto.
Qed.

(** ** Replay *)

Lemma replay_app t1 t2 stats c n :
  replay (t1 ++ t2) stats c n =
    match replay t1 stats c n with
    | Ok r => replay t2 (run_stats r) (run_cache r) (run_linenum r)
    | Crash f => Crash f
    end.
Proof.
  revert stats c n. induction t1 as [|a t1 IH]; intros stats c n; simpl; [done|].
  destruct (isInCache _ _ _ _ _) as [[c' o]|]; [apply IH | done].
Qed.

Lemma replay_total trace stats c n :
  wf_cache c → ∃ r, replay trace stats c n = Ok r.
Proof.
  revert stats c n. induction trace as [|a trace IH]; intros stats c n Hwf; simpl.
  - eauto.
  - destruct (isInCache_total (t_address a) c (t_instruction a) n no_flags Hwf)
      as (c' & o & Hacc).
    rewrite Hacc. apply IH. by eapply isInCache_wf.
Qed.

(** An invariant of the statistics and the cache that every iteration of
    the loop keeps holds when the loop is left. *)
Lemma replay_invariant (P : csim_stats_t → Cache → Prop) :
  (∀ stats c a n c' o, P stats c →
     isInCache (t_address a) c (t_instruction a) n no_flags = Ok (c', o) →
     P (count_outcome (cB c') o stats) c') →
  ∀ trace stats c n r, P stats c → replay trace stats c n = Ok r →
    P (run_stats r) (run_cache r).
Proof.
  intros Hstep trace. induction trace as [|a trace IH]; intros stats c n r HP; simpl.
  - by intros [= <-].
  - destruct (isInCache _ _ _ _ _) as [[c' o]|] eqn:Hacc; [|done].
    apply IH. by eapply Hstep.
Qed.

Lemma count_outcome_fields B o st :
  hits (count_outcome B o st) = hits st + b2z (r_hit o) ∧
  misses (count_outcome B o st) = misses st + b2z (r_miss o) ∧
  evictions (count_outcome B o st) = evictions st + b2z (r_eviction o) ∧
  dirty_bytes (count_outcome B o st) =
    dirty_bytes st + B * b2z (r_dirty o) - B * b2z (r_dirty_eviction o) ∧
  dirty_evictions (count_outcome B o st) =
    dirty_evictions st + B * b2z (r_dirty_eviction o).
Proof.
  unfold count_outcome.
  destruct o as [[] [] [] [] []]; simpl; split_and!; lia.
Qed.

Lemma isInCache_flags address c op num c' o :
  isInCache address c op num no_flags = Ok (c', o) →
  r_hit o = negb (r_miss o) ∧ (r_eviction o = true → r_miss o = true).
Proof.
  intros H. apply isInCache_Ok in H as (lines & lines' & _ & Hacc & _).
  by eapply access_lines_flags.
Qed.

Lemma replay_counts trace stats c n r :
  replay trace stats c n = Ok r →
  hits (run_stats r) + misses (run_stats r) =
    hits stats + misses stats + Z.of_nat (length trace) ∧
  evictions (run_stats r) - evictions stats ≤ misses (run_stats r) - misses stats.
Proof.
  revert stats c n. induction trace as [|a trace IH]; intros stats c n; simpl.
  - intros [= <-]. simpl. lia.
  - destruct (isInCache _ _ _ _ _) as [[c' o]|] eqn:Hacc; [|done].
    intros Hr. apply IH in Hr.
    destruct (isInCache_flags _ _ _ _ _ _ Hacc) as [Hhm Hev].
    destruct (count_outcome_fields (cB c') o stats) as (Hh & Hm & He & _).
    rewrite Hh, Hm, He in Hr. rewrite Hhm in Hr.
    destruct (r_miss o), (r_eviction o); simpl in Hr;
      try (specialize (Hev eq_refl); discriminate); lia.
Qed.

(** The dirty lines of the cache, counted through one access. *)
Lemma isInCache_dirty_total address c op num c' o :
  isInCache address c op num no_flags = Ok (c', o) →
  cache_inv c →
  dirty_total (sets c') =
    dirty_total (sets c) + b2z (r_dirty o) - b2z (r_dirty_eviction o).
Proof.
  intros H [Hshape Hinv].
  apply isInCache_Ok in H as (lines & lines' & Hset & Hacc & ->). simpl.
  rewrite (dirty_total_insert _ _ _ _ Hset).
  destruct (Hinv _ _ Hset) as (_ & _ & Hc).
  rewrite (access_lines_dirty_count _ _ _ _ _ _ _ Hacc); [lia|eauto|done].
Qed.

Lemma replay_dirty_bytes trace stats c n r :
  cache_inv c →
  dirty_bytes stats = cB c * dirty_total (sets c) →
  replay trace stats c n = Ok r →
  cB (run_cache r) = cB c ∧ cache_inv (run_cache r) ∧
  dirty_bytes (run_stats r) = cB c * dirty_total (sets (run_cache r)).
Proof.
  intros Hinv Hd Hr.
  apply (replay_invariant (λ st c0, cB c0 = cB c ∧ cache_inv c0 ∧
    dirty_bytes st = cB c * dirty_total (sets c0))) in Hr; [done| |done].
  clear. intros stats c0 a n c' o (HB & Hinv & Hd) Hacc.
  pose proof (isInCache_geometry _ _ _ _ _ _ _ Hacc) as (_ & _ & HB' & _).
  split_and!; [congruence|by eapply isInCache_inv|].
  destruct (count_outcome_fields (cB c') o stats) as (_ & _ & _ & -> & _).
  rewrite (isInCache_dirty_total _ _ _ _ _ _ Hacc Hinv), Hd, HB', HB. lia.
Qed.

Lemma dirty_total_makeCache hdr : dirty_total (sets (makeCache hdr)) = 0.
Proof.
  assert (∀ m, dirty_count (replicate m empty_line) = 0) as Hset.
  { induction m as [|m IHm]; simpl; [done|]. by rewrite IHm. }
  simpl. induction (Z.to_nat (cS hdr)) as [|n IH]; simpl; [done|].
  by rewrite IH, Hset.
Qed.

(** ** The claims about replay and reachable states *)

(** C3: at every point of the replay of a trace [pre ++ post] (here, when
    the records of [pre] have been counted), [dirty_bytes] is [B] times the
    number of valid dirty lines of the whole cache, and is not negative.
    With a valid geometry every such point is reached. *)
Theorem dirty_bytes_counts_dirty_lines hdr pre post :
  0 ≤ cB hdr →
  (∀ r, incrementStats pre zero_stats (makeCache hdr) = Ok r →
     incrementStats (pre ++ post) zero_stats (makeCache hdr) =
       replay post (run_stats r) (run_cache r) (run_linenum r) ∧
     0 ≤ dirty_bytes (run_stats r) ∧
     dirty_bytes (run_stats r) = cB hdr * dirty_total (sets (run_cache r))) ∧
  (valid_geometry hdr →
     ∃ r, incrementStats pre zero_stats (makeCache hdr) = Ok r).
Proof.
  intros HB. split.
  - intros r Hr. unfold incrementStats in *. split.
    { by rewrite replay_app, Hr. }
    apply replay_dirty_bytes in Hr as (_ & _ & Hd).
    + split; [|exact Hd]. rewrite Hd.
      apply Z.mul_nonneg_nonneg; [done | apply dirty_total_nonneg].
    + apply makeCache_inv.
    + rewrite dirty_total_makeCache. simpl. lia.
  - intros Hg. apply replay_total. by apply makeCache_wf.
Qed.

(** C4: an access that starts from the flags all lowered raises exactly one
    of the hit and the miss flag, and the eviction flag only with the miss;
    so after the replay of a trace [hits + misses] is the number of records
    and [evictions <= misses].  With a valid geometry the replay of every
    trace completes. *)
Theorem hits_and_misses_count_the_records hdr trace :
  (∀ address c op num c' o,
     isInCache address c op num no_flags = Ok (c', o) →
     r_hit o = negb (r_miss o) ∧ (r_eviction o = true → r_miss o = true)) ∧
  (∀ r, incrementStats trace zero_stats (makeCache hdr) = Ok r →
     hits (run_stats r) + misses (run_stats r) = Z.of_nat (length trace) ∧
     evictions (run_stats r) ≤ misses (run_stats r)) ∧
  (valid_geometry hdr →
     ∃ r, incrementStats trace zero_stats (makeCache hdr) = Ok r).
Proof.
  split_and!.
  - intros address c op num c' o. apply isInCache_flags.
  - intros r Hr. apply replay_counts in Hr. simpl in Hr. lia.
  - intros Hg. apply replay_total. by apply makeCache_wf.
Qed.

(** C8: in every cache state reachable from a freshly made cache by calls
    of [isInCache], no two valid lines of a set carry the same tag, and the
    state after one more call is such a state again. *)
Theorem reachable_distinct_tags c :
  reachable c →
  (∀ set lines, sets c !! set = Some lines → distinct_tags lines) ∧
  (∀ address op num result c' result',
     isInCache address c op num result = Ok (c', result') →
     ∀ set lines, sets c' !! set = Some lines → distinct_tags lines).
Proof.
  intros Hr. split.
  - intros set lines Hl. by destruct (reachable_inv c Hr) as [_ Hinv],
      (Hinv set lines Hl) as (_ & ? & _).
  - intros address op num result c' result' Hacc set lines Hl.
    assert (reachable c') as Hr' by (by eapply reachable_access).
    by destruct (reachable_inv c' Hr') as [_ Hinv],
      (Hinv set lines Hl) as (_ & ? & _).
Qed.

(** C10: in every reachable cache state the valid lines of a set are a
    prefix of its slots; and so a call that reports a miss, its scan having
    stopped at the first invalid line, has skipped no valid line with the
    tag of the address. *)
Theorem reachable_valid_prefix c :
  reachable c →
  (∀ set lines i j li, sets c !! set = Some lines →
     lines !! i = Some li → validbit li = true → (j < i)%nat →
     ∃ lj, lines !! j = Some lj ∧ validbit lj = true) ∧
  (∀ address op num c' o lines i li,
     isInCache address c op num no_flags = Ok (c', o) → r_miss o = true →
     sets c !! Z.to_nat (set_of c address) = Some lines →
     lines !! i = Some li → validbit li = true →
     tagbits li ≠ tag_of c address).
Proof.
  intros Hr. destruct (reachable_inv c Hr) as [Hshape Hinv]. split.
  - intros set lines i j li Hl. destruct (Hinv set lines Hl) as (Hpre & _).
    apply Hpre.
  - intros address op num c' o lines i li Hacc Hmiss Hl Hi Hv.
    apply isInCache_Ok in Hacc as (lines0 & lines' & Hl0 & Hacc & _).
    rewrite Hl in Hl0. injection Hl0 as <-.
    destruct (Hinv _ _ Hl) as (Hpre & _).
    pose proof (Hshape _ _ Hl) as Hlen.
    apply access_lines_cases in Hacc.
    destruct Hacc as [(k & l & Hk & Hlk & Hvk & Ht & Hp & -> & ->)|
                      [(k & l & Hk & Hlk & Hvk & Hp & -> & ->)|
                       (k & l & Hlk & Hp & Hk & -> & ->)]].
    + unfold hit_result in Hmiss. by destruct (is_store op && _).
    + destruct (decide (i < k)%nat) as [Hlt|Hge].
      * destruct (Hp i Hlt) as (li' & Hi' & _ & ?). congruence.
      * destruct (decide (i = k)) as [->|Hne]; [congruence|].
        destruct (Hpre i k li Hi Hv ltac:(lia)) as (lk & ? & ?). congruence.
    + by destruct (full_slot_valid (cE c) lines (tag_of c address) i li).
Qed.

(** C9: the statistics depend on the operation and the address of each
    record only: two traces that agree on them, whatever the sizes, replayed
    through two caches made from the same geometry, end with the same
    statistics (and the same cache). *)
Theorem replay_ignores_sizes hdr t1 t2 :
  same_accesses t1 t2 →
  incrementStats t1 zero_stats (makeCache hdr) =
    incrementStats t2 zero_stats (makeCache hdr).
Proof.
  unfold incrementStats, same_accesses.
  generalize zero_stats (makeCache hdr) 0.
  revert t2. induction t1 as [|a1 t1 IH]; intros [|a2 t2] stats c n Hsame;
    try done; simpl in *.
  injection Hsame as Hop Haddr Hrest. rewrite Hop, Haddr.
  destruct (isInCache _ _ _ _ _) as [[c' o]|]; [by apply IH | done].
Qed.

(** C6: with [E = 1], [s = 0], [b = 3], the trace of a store to 0x0 and a
    store to 0x8 ends with no hit, two misses, one eviction, 8 dirty bytes
    evicted and 8 dirty bytes in the cache. *)
Theorem two_stores_one_line size0 size1 :
  ∃ r, main 0 1 3 [mkAccess "S" 0 size0; mkAccess "S" 8 size1] = Ok r ∧
       run_stats r = mkStats 0 2 1 8 8.
Proof.
  eexists. split; [vm_compute; reflexivity | reflexivity].
Qed.

(** ** The same access twice *)

Lemma passed_insert_ne (lines : LineSet) tag j k x :
  j ≠ k → passed lines tag j → passed (<[k := x]> lines) tag j.
Proof.
  intros Hne (lj & Hj & ? & ?). exists lj.
  by rewrite list_lookup_insert_ne.
Qed.

(** After an access the set holds the block where the next scan finds it. *)
Lemma access_lines_resident E lines tag op num result lines' result' :
  length lines = Z.to_nat E →
  access_lines E lines tag op num result = Ok (lines', result') →
  ∃ k l', (k < Z.to_nat E)%nat ∧ lines' !! k = Some l' ∧
    validbit l' = true ∧ tagbits l' = tag ∧
    ∀ j, (j < k)%nat → passed lines' tag j.
Proof.
  intros Hlen H. apply access_lines_cases in H.
  assert (∀ k l l', lines !! k = Some l → (k < Z.to_nat E)%nat →
    validbit l' = true → tagbits l' = tag →
    (∀ j, (j < k)%nat → passed lines tag j) →
    ∃ k0 l0, (k0 < Z.to_nat E)%nat ∧ <[k := l']> lines !! k0 = Some l0 ∧
      validbit l0 = true ∧ tagbits l0 = tag ∧
      ∀ j, (j < k0)%nat → passed (<[k := l']> lines) tag j) as Hres.
  { intros k l l' Hl Hk Hv Ht Hp. exists k, l'. split_and!; try done.
    - apply list_lookup_insert_eq. by eapply lookup_lt_Some.
    - intros j Hj. apply passed_insert_ne; [lia|]. by apply Hp. }
  destruct H as [(k & l & Hk & Hl & Hv & Ht & Hp & -> & ->)|
                 [(k & l & Hk & Hl & Hv & Hp & -> & ->)|
                  (k & l & Hl & Hp & Hk & -> & ->)]].
  - apply (Hres k l); auto.
    + by rewrite hit_line_validbit.
    + by rewrite hit_line_tagbits.
  - apply (Hres k l); auto.
    + by rewrite placed_line_validbit.
    + by rewrite placed_line_tagbits.
  - assert (k < Z.to_nat E)%nat as Hk'.
    { apply lookup_lt_Some in Hl. lia. }
    apply (Hres k l); auto.
    + rewrite placed_line_validbit. simpl.
      by destruct (full_slot_valid E lines tag k l).
    + by rewrite placed_line_tagbits.
    + intros j Hj. apply Hp. lia.
Qed.

Lemma set_of_geometry c c' address :
  cs c' = cs c → cb c' = cb c → set_of c' address = set_of c address.
Proof. intros Hs Hb. unfold set_of. by rewrite Hs, Hb. Qed.

Lemma tag_of_geometry c c' address :
  cs c' = cs c → cb c' = cb c → tag_of c' address = tag_of c address.
Proof. intros Hs Hb. unfold tag_of. by rewrite Hs, Hb. Qed.

Lemma shr_ulong_nonneg x n : 0 ≤ x → 0 ≤ shr_ulong x n.
Proof.
  intros Hx. unfold shr_ulong, wrap_ulong.
  destruct (_ && _); [by apply Z.shiftr_nonneg | by apply Z.mod_pos_bound].
Qed.

Lemma shl_ulong_nonneg x n : 0 ≤ shl_ulong x n.
Proof.
  unfold shl_ulong, wrap_ulong. destruct (_ && _); by apply Z.mod_pos_bound.
Qed.

Lemma set_of_nonneg c address : 0 ≤ set_of c address.
Proof.
  unfold set_of. destruct (cs c =? 0); [done|].
  apply shr_ulong_nonneg, shl_ulong_nonneg.
Qed.

Lemma isInCache_resident address c op num result c' result' :
  well_shaped c →
  isInCache address c op num result = Ok (c', result') →
  resident c' address.
Proof.
  intros Hshape H.
  apply isInCache_Ok in H as (lines & lines' & Hset & Hacc & ->).
  destruct (access_lines_resident _ _ _ _ _ _ _ _ (Hshape _ _ Hset) Hacc)
    as (k & l' & Hk & Hl' & Hv & Ht & Hp).
  exists lines', k, l'. split_and!; try done. simpl.
  change (set_of (with_sets c _) address) with (set_of c address).
  apply list_lookup_insert_eq. by eapply lookup_lt_Some.
Qed.

(** An access to another set leaves the block where it is. *)
Lemma isInCache_other_set address c address2 op num result c' result' :
  set_of c address2 ≠ set_of c address →
  isInCache address2 c op num result = Ok (c', result') →
  resident c address → resident c' address.
Proof.
  intros Hne H (lines & k & l & Hset & Hk & Hl & Hv & Ht & Hp).
  apply isInCache_Ok in H as (lines2 & lines2' & _ & _ & ->).
  exists lines, k, l. split_and!; try done. simpl.
  change (set_of (with_sets c _) address) with (set_of c address).
  rewrite list_lookup_insert_ne; [done|].
  pose proof (set_of_nonneg c address). pose proof (set_of_nonneg c address2).
  lia.
Qed.

(** A resident block is hit. *)
Lemma resident_hit address c op num result :
  resident c address →
  ∃ c' o, isInCache address c op num result = Ok (c', o) ∧
    r_hit o = true ∧ r_miss o = r_miss result.
Proof.
  intros (lines & k & l & Hset & Hk & Hl & Hv & Ht & Hp).
  unfold isInCache, access_lines. rewrite Hset.
  rewrite (scan_finds _ _ _ _ _ _ _ _ _ k l Hl Hv Ht); [| |lia].
  - eexists _, _. split; [done|].
    unfold hit_result. by destruct (is_store op && _).
  - intros j Hj. apply Hp. lia.
Qed.

Lemma replay_cache_inv trace stats c n r :
  cache_inv c → replay trace stats c n = Ok r → cache_inv (run_cache r).
Proof.
  intros Hinv Hr.
  apply (replay_invariant (λ _ c0, cache_inv c0)) in Hr; [done| |done].
  intros ? c0 a n0 c' o ? Hacc. by eapply isInCache_inv.
Qed.

Lemma replay_other_sets mid address stats c n r :
  other_sets c address mid → resident c address →
  replay mid stats c n = Ok r → resident (run_cache r) address.
Proof.
  revert stats c n. induction mid as [|m mid IH]; intros stats c n Hmid Hres; simpl.
  - by intros [= <-].
  - destruct (isInCache _ _ _ _ _) as [[c' o]|] eqn:Hacc; [|done].
    apply Forall_cons in Hmid as [Hm Hmid].
    pose proof (isInCache_geometry _ _ _ _ _ _ _ Hacc) as (_ & _ & _ & Hs & Hb & _).
    apply IH.
    + eapply Forall_impl; [exact Hmid|]. intros x Hx. simpl in Hx.
      by rewrite !(set_of_geometry c c') by done.
    + by eapply isInCache_other_set.
Qed.

(** C7: when a record repeats the operation and the address of an earlier
    record, and the records between the two, if any, all go to other sets,
    the access made for it is a hit.  [a] is the earlier record, [a'] the
    later one, [mid] the records between them (none, when [a'] comes
    right after [a]), [trace] what was replayed before and [post] what
    comes after; the last equation says that the call shown is the one the
    replay of the whole trace makes for [a']. *)
Theorem repeated_access_hits hdr trace a mid a' post r :
  t_instruction a' = t_instruction a →
  t_address a' = t_address a →
  other_sets hdr (t_address a) mid →
  incrementStats (trace ++ a :: mid) zero_stats (makeCache hdr) = Ok r →
  ∃ c' o,
    isInCache (t_address a') (run_cache r) (t_instruction a') (run_linenum r)
      no_flags = Ok (c', o) ∧
    r_hit o = true ∧ r_miss o = false ∧
    incrementStats (trace ++ a :: mid ++ a' :: post) zero_stats (makeCache hdr) =
      replay post (count_outcome (cB c') o (run_stats r)) c'
        (wrap_int (run_linenum r + 1)).
Proof.
  intros Hop Haddr Hmid Hr. unfold incrementStats in *.
  assert (resident (run_cache r) (t_address a)) as Hres.
  { rewrite replay_app in Hr.
    destruct (replay trace _ _ _) as [r0|] eqn:Hr0; [|done].
    pose proof (replay_cache_inv _ _ _ _ _ (makeCache_inv hdr) Hr0) as [Hshape _].
    assert (cs (run_cache r0) = cs hdr ∧ cb (run_cache r0) = cb hdr) as [Hs0 Hb0].
    { apply (replay_invariant (λ _ c0, cs c0 = cs hdr ∧ cb c0 = cb hdr)) in Hr0;
        [done| |done].
      intros ? c0 ? ? c1 ? [? ?] Hacc.
      apply isInCache_geometry in Hacc as (_ & _ & _ & ? & ? & _).
      split; congruence. }
    simpl in Hr.
    destruct (isInCache _ _ _ _ _) as [[c1 o1]|] eqn:Hacc; [|done].
    pose proof (isInCache_geometry _ _ _ _ _ _ _ Hacc) as (_ & _ & _ & Hs1 & Hb1 & _).
    eapply replay_other_sets; [|by eapply isInCache_resident|exact Hr].
    eapply Forall_impl; [exact Hmid|]. intros x Hx. simpl in Hx.
    rewrite !(set_of_geometry hdr c1) by congruence. done. }
  destruct (resident_hit (t_address a) (run_cache r) (t_instruction a')
    (run_linenum r) no_flags Hres) as (c' & o & Hacc & Hhit & Hmiss).
  rewrite <- Haddr in Hacc.
  exists c', o. split_and!; try done.
  replace (trace ++ a :: mid ++ a' :: post)
    with ((trace ++ a :: mid) ++ a' :: post)
    by (by rewrite <- app_assoc).
  rewrite replay_app, Hr. simpl. by rewrite Hacc.
Qed.

(** ** The line a miss in a full set replaces *)

Lemma full_miss_scan c address op num lines :
  1 ≤ cE c → length lines = Z.to_nat (cE c) →
  (∀ i l, lines !! i = Some l →
     validbit l = true ∧ tagbits l ≠ tag_of c address) →
  ∃ k l,
    scan (Z.to_nat (cE c)) lines (tag_of c address) op num no_flags 0 0 num =
      Ok (AfterLoop false k) ∧ lines !! k = Some l.
Proof.
  intros HE Hlen Hfull.
  destruct (scan_total (Z.to_nat (cE c)) lines (tag_of c address) op num
    no_flags 0 0 num) as [ex Hs]; [lia|].
  pose proof (scan_exit _ _ _ _ _ _ _ _ _ _ Hs) as Hex.
  destruct ex as [lines1 result1|[] k].
  - destruct Hex as (k & l & _ & Hl & _ & Ht & _).
    by destruct (Hfull k l Hl).
  - destruct Hex as (_ & (l & Hl & Hv) & _).
    destruct (Hfull k l Hl). congruence.
  - destruct Hex as (_ & Hk).
    destruct (lookup_lt_is_Some_2 lines k) as [l Hl]; [|eauto].
    destruct Hk as [->|]; lia.
Qed.

Lemma after_scan_replaces c address op num lines k l :
  sets c !! Z.to_nat (set_of c address) = Some lines →
  scan (Z.to_nat (cE c)) lines (tag_of c address) op num no_flags 0 0 num =
    Ok (AfterLoop false k) →
  lines !! k = Some l → validbit l = true →
  replaces c address op num k.
Proof.
  intros Hset Hs Hl Hv.
  exists lines, (placed_line l (tag_of c address) op num false).
  eexists _, _. split_and!; [done| |reflexivity|..].
  - unfold isInCache, access_lines.
    by rewrite Hset, Hs, (place_eq _ _ _ _ _ _ _ _ Hl).
  - by rewrite placed_line_validbit.
  - apply placed_line_tagbits.
  - apply placed_line_timestamp.
  - unfold placed_result. by destruct (is_store op), (dirtybit l).
Qed.

Lemma scan_oldest_first c address op num lines k lj j :
  length lines = Z.to_nat (cE c) →
  scan (Z.to_nat (cE c)) lines (tag_of c address) op num no_flags 0 0 num =
    Ok (AfterLoop false k) →
  lines !! j = Some lj → timestamp lj < num →
  oldest_first lines k.
Proof.
  intros Hlen Hs Hj Hlt. apply scan_oldest in Hs.
  destruct Hs as [[-> Hall]|(lk & Hk & Hlk & Hold & Hall)].
  - pose proof (lookup_lt_Some _ _ _ Hj).
    pose proof (Hall j lj ltac:(lia) Hj). lia.
  - exists lk. split; [done|]. intros i li Hi.
    pose proof (lookup_lt_Some _ _ _ Hi). apply Hall; [lia|done].
Qed.

(** A miss on a full set replaces the first line with the smallest
    timestamp as soon as the time of the access is later than the last use
    of one line of the set. *)
Lemma full_miss_evicts_oldest c address op num :
  full_miss c address → older_line c address num →
  evicts_oldest c address op num.
Proof.
  intros (HE & lines & Hset & Hlen & Hfull) (lines0 & j & lj & Hset0 & Hj & Hlt).
  destruct (full_miss_scan c address op num lines HE Hlen Hfull)
    as (k & l & Hs & Hl).
  destruct (Hfull k l Hl) as [Hv _].
  rewrite Hset in Hset0. injection Hset0 as <-.
  exists lines, k. split_and!; [done| |by eapply after_scan_replaces].
  exact (scan_oldest_first c address op num lines k lj j Hlen Hs Hj Hlt).
Qed.

(** ** The clock of the replay *)

Lemma access_lines_stamps E lines tag op num result lines' result' :
  access_lines E lines tag op num result = Ok (lines', result') →
  0 ≤ num →
  (∀ i l, lines !! i = Some l → validbit l = true → 0 ≤ timestamp l < num) →
  ∀ i l, lines' !! i = Some l → validbit l = true → 0 ≤ timestamp l < num + 1.
Proof.
  intros H Hnum Hold i l0 Hi Hv. apply access_lines_cases in H.
  assert (∀ k l', timestamp l' = num → <[k := l']> lines !! i = Some l0 →
    0 ≤ timestamp l0 < num + 1) as Hins.
  { intros k l' Ht Hl0.
    apply list_lookup_insert_Some in Hl0 as [(-> & <- & _)|(_ & Hl0)]; [lia|].
    pose proof (Hold i l0 Hl0 Hv). lia. }
  destruct H as [(k & l & Hk & Hl & Hvk & Ht & Hp & -> & ->)|
                 [(k & l & Hk & Hl & Hvk & Hp & -> & ->)|
                  (k & l & Hl & Hp & Hk & -> & ->)]].
  - apply (Hins k (hit_line l op num)); [apply hit_line_timestamp | done].
  - apply (Hins k (placed_line l tag op num true));
      [apply placed_line_timestamp | done].
  - apply (Hins k (placed_line l tag op num false));
      [apply placed_line_timestamp | done].
Qed.

Lemma isInCache_stamps address c op num result c' result' :
  isInCache address c op num result = Ok (c', result') →
  0 ≤ num → stamps_below c num → stamps_below c' (num + 1).
Proof.
  intros H Hnum Hold set ls i l Hls Hi Hv.
  apply isInCache_Ok in H as (lines & lines' & Hset & Hacc & ->). simpl in Hls.
  apply list_lookup_insert_Some in Hls as [(_ & <- & _)|(_ & Hls)].
  - eapply access_lines_stamps; eauto.
  - pose proof (Hold set ls i l Hls Hi Hv). lia.
Qed.

Lemma replay_stamps trace stats c n r :
  0 ≤ n → n + Z.of_nat (length trace) < 2 ^ 31 →
  stamps_below c n →
  replay trace stats c n = Ok r →
  run_linenum r = n + Z.of_nat (length trace) ∧
  stamps_below (run_cache r) (run_linenum r).
Proof.
  revert stats c n. induction trace as [|a trace IH]; intros stats c n Hn Hlen Hold.
  - simpl. intros [= <-]. simpl. split; [lia|done].
  - simpl. destruct (isInCache _ _ _ _ _) as [[c' o]|] eqn:Hacc; [|done].
    rewrite wrap_int_small by (simpl length in Hlen; lia).
    intros Hr. apply IH in Hr; try (simpl length in Hlen; lia).
    + destruct Hr as [-> ?]. split; [simpl length; lia | done].
    + by eapply isInCache_stamps.
Qed.

(** C1: [incrementStats] makes every call of [isInCache], with the number
    of the records read before as the time.  When such a call, in a run of
    fewer than 2^31 records, misses on a full set of [E >= 1] lines, the
    line replaced is the first one with the smallest timestamp; it gets the
    tag of the address and the time of the call and stays valid, the
    eviction flag is raised, and the run goes on from the cache that the
    call left, with one eviction more. *)
Theorem full_set_miss_replaces_oldest hdr trace a r :
  Z.of_nat (length trace) < 2 ^ 31 →
  incrementStats trace zero_stats (makeCache hdr) = Ok r →
  full_miss (run_cache r) (t_address a) →
  evicts_oldest (run_cache r) (t_address a) (t_instruction a)
    (Z.of_nat (length trace)) ∧
  ∃ r' result',
    incrementStats (trace ++ [a]) zero_stats (makeCache hdr) = Ok r' ∧
    isInCache (t_address a) (run_cache r) (t_instruction a)
      (Z.of_nat (length trace)) no_flags = Ok (run_cache r', result') ∧
    evictions (run_stats r') = evictions (run_stats r) + 1.
Proof.
  intros Hlen Hr Hmiss. unfold incrementStats in *.
  destruct (replay_stamps trace zero_stats (makeCache hdr) 0 r) as [Hclock Hold];
    [lia|lia| |done|].
  { intros set ls i l Hls Hi Hv. simpl in Hls.
    apply lookup_replicate in Hls as [-> _].
    by apply lookup_replicate in Hi as [-> _]. }
  rewrite Z.add_0_l in Hclock.
  assert (older_line (run_cache r) (t_address a) (Z.of_nat (length trace)))
    as Holder.
  { destruct Hmiss as (HE & lines & Hset & Hlines & Hfull).
    destruct (lookup_lt_is_Some_2 lines 0) as [l0 Hl0]; [lia|].
    destruct (Hfull 0%nat l0 Hl0) as [Hv0 _].
    pose proof (Hold _ _ _ _ Hset Hl0 Hv0).
    exists lines, 0%nat, l0. split_and!; [done|done|lia]. }
  pose proof (full_miss_evicts_oldest _ _ (t_instruction a) _ Hmiss Holder)
    as Hev.
  split; [done|].
  destruct Hev as (_ & _ & _ & _ & _ & l' & c' & result' & _ & Hacc & _ & _ &
    _ & _ & Hflag).
  rewrite replay_app, Hr. simpl. rewrite Hclock, Hacc.
  eexists _, result'. split; [done|]. simpl. split; [done|].
  destruct (count_outcome_fields (cB c') result' (run_stats r))
    as (_ & _ & He & _).
  rewrite He, Hflag. simpl. lia.
Qed.

(** X1: in the replay of fewer than 2^31 records the clock is the number of
    records counted so far and every valid line was last used before it; so
    a miss on a full set then replaces the first line with the smallest
    timestamp. *)
Theorem replay_miss_replaces_oldest hdr trace a r :
  Z.of_nat (length trace) < 2 ^ 31 →
  incrementStats trace zero_stats (makeCache hdr) = Ok r →
  full_miss (run_cache r) (t_address a) →
  run_linenum r = Z.of_nat (length trace) ∧
  stamps_below (run_cache r) (run_linenum r) ∧
  evicts_oldest (run_cache r) (t_address a) (t_instruction a) (run_linenum r).
Proof.
  intros Hlen Hr (HE & lines & Hset & Hlines & Hfull).
  apply replay_stamps in Hr as [Hclock Hold]; [|lia|lia|].
  2: { intros set ls i l Hls Hi Hv. simpl in Hls.
       apply lookup_replicate in Hls as [-> _].
       by apply lookup_replicate in Hi as [-> _]. }
  split_and!; [lia|done|].
  destruct (full_miss_scan (run_cache r) (t_address a) (t_instruction a)
    (run_linenum r) lines HE Hlines Hfull) as (k & l & Hs & Hl).
  destruct (Hfull k l Hl) as [Hv _].
  exists lines, k. split_and!; [done| |by eapply after_scan_replaces].
  destruct (lookup_lt_is_Some_2 lines 0) as [l0 Hl0]; [lia|].
  destruct (Hfull 0%nat l0 Hl0) as [Hv0 _].
  pose proof (Hold _ _ _ _ Hset Hl0 Hv0).
  eapply scan_oldest_first; eauto. lia.
Qed.

(** C2 (amended): with [s, b >= 0] and [s + b <= 64] the set index is
    [(address >> b) mod 2^s], which is 0 when [s = 0], and with
    [s + b < 64] the tag is [address >> (s + b)], whatever the shifts that
    C leaves undefined yield. *)
Theorem address_decomposition c address :
  0 ≤ cs c → 0 ≤ cb c → cs c + cb c ≤ 64 →
  (cs c + cb c < 64 → tag_of c address = Z.shiftr address (cs c + cb c)) ∧
  set_of c address = Z.shiftr address (cb c) mod 2 ^ cs c ∧
  (cs c = 0 → set_of c address = 0).
Proof.
  intros Hs Hb Hsb. split_and!.
  - intros Hlt. by apply tag_of_defined.
  - destruct (decide (cs c = 0)) as [H0|Hne].
    + rewrite set_of_zero, H0 by done. simpl. by rewrite Z.mod_1_r.
    + apply set_of_defined; lia.
  - apply set_of_zero.
Qed.

(** C5 (amended): nothing checks the geometry.  With [E = 0], [makeCache]
    returns a cache of [S] sets without lines; the replay of the empty trace
    on it completes with all counters at zero, and the replay of any other
    trace calls [isInCache] on it, and it is that call which goes out of
    bounds.  With [s = 0] and [E = 1], any [b] at all goes through
    construction and an access. *)
Theorem geometry_is_not_checked s b :
  sets (makeCache (geometry s 0 b)) = replicate (Z.to_nat (shl_int 1 s)) [] ∧
  main s 0 b [] = Ok (mkRun zero_stats (makeCache (geometry s 0 b)) 0) ∧
  (∀ a trace, ∃ f,
     isInCache (t_address a) (makeCache (geometry s 0 b)) (t_instruction a) 0
       no_flags = Crash f ∧
     main s 0 b (a :: trace) = Crash f) ∧
  (∀ a, ∃ r, main 0 1 b [a] = Ok r).
Proof.
  split_and!; [done|done| |].
  - intros a trace. unfold main, incrementStats. simpl.
    unfold isInCache. simpl.
    destruct (replicate _ _ !! _) as [lines|] eqn:Hl; [|eauto].
    apply lookup_replicate in Hl as [-> _]. eauto.
  - intros a. unfold main, incrementStats. simpl.
    unfold isInCache, geometry, set_of, makeCache. simpl.
    rewrite (shl_int_defined 0) by lia. simpl.
    match goal with
    | |- context [access_lines ?E ?ls ?t ?o ?n ?res] =>
      destruct (access_lines_total E ls t o n res) as (lines' & result' & ->);
        [lia|done|]
    end.
    eauto.
Qed.

(** X2: with [E = 2], [s = 0], [b = 3], a store to 0x0 followed by a load
    from 0x0 ends with one hit, one miss, 8 dirty bytes and no dirty byte
    evicted. *)
Theorem store_then_load size0 size1 :
  ∃ r, main 0 2 3 [mkAccess "S" 0 size0; mkAccess "L" 0 size1] = Ok r ∧
       run_stats r = mkStats 1 1 0 8 0.
Proof.
  eexists. split; [vm_compute; reflexivity | reflexivity].
Qed.

(** * Further properties of the code *)

(** ** What one access changes *)

Lemma isInCache_frame address c op num result c' result' :
  isInCache address c op num result = Ok (c', result') →
  ∃ lines k l l',
    sets c !! Z.to_nat (set_of c address) = Some lines ∧
    lines !! k = Some l ∧
    c' = with_sets c
      (<[Z.to_nat (set_of c address) := <[k := l']> lines]> (sets c)) ∧
    tagbits l' = tag_of c address ∧ timestamp l' = num ∧
    (validbit l = true → validbit l' = true).
Proof.
  intros H. apply isInCache_Ok in H as (lines & lines' & Hset & Hacc & ->).
  apply access_lines_cases in Hacc.
  destruct Hacc as [(k & l & Hk & Hl & Hv & Ht & Hp & -> & ->)|
                    [(k & l & Hk & Hl & Hv & Hp & -> & ->)|
                     (k & l & Hl & Hp & Hk & -> & ->)]].
  - exists lines, k, l, (hit_line l op num). split_and!; try done.
    + by rewrite hit_line_tagbits.
    + apply hit_line_timestamp.
    + by rewrite hit_line_validbit.
  - exists lines, k, l, (placed_line l (tag_of c address) op num true).
    split_and!; try done.
    + apply placed_line_tagbits.
    + apply placed_line_timestamp.
    + by rewrite placed_line_validbit.
  - exists lines, k, l, (placed_line l (tag_of c address) op num false).
    split_and!; try done.
    + apply placed_line_tagbits.
    + apply placed_line_timestamp.
    + by rewrite placed_line_validbit.
Qed.

(** X3: a call of [isInCache] that returns has changed one slot of the
    target set and nothing else: the geometry, the number of sets, every
    other set, the number of lines of the target set and every other slot
    of it are as before.  The slot it changed holds the tag of the address
    and the time of the call, and is valid if it was. *)
Theorem access_changes_one_slot address c op num result c' result' :
  isInCache address c op num result = Ok (c', result') →
  (cS c' = cS c ∧ cE c' = cE c ∧ cB c' = cB c ∧ cs c' = cs c ∧ cb c' = cb c) ∧
  length (sets c') = length (sets c) ∧
  (∀ set, set ≠ Z.to_nat (set_of c address) → sets c' !! set = sets c !! set) ∧
  ∃ lines lines' k l l',
    sets c !! Z.to_nat (set_of c address) = Some lines ∧
    sets c' !! Z.to_nat (set_of c address) = Some lines' ∧
    length lines' = length lines ∧
    (∀ i, i ≠ k → lines' !! i = lines !! i) ∧
    lines !! k = Some l ∧ lines' !! k = Some l' ∧
    tagbits l' = tag_of c address ∧ timestamp l' = num ∧
    (validbit l = true → validbit l' = true).
Proof.
  intros H. pose proof (isInCache_geometry _ _ _ _ _ _ _ H) as Hgeo.
  apply isInCache_frame in H as (lines & k & l & l' & Hset & Hl & -> & Ht & Hn & Hv).
  split; [tauto|]. split; [tauto|]. split.
  { intros set Hne. simpl. by rewrite list_lookup_insert_ne. }
  exists lines, (<[k := l']> lines), k, l, l'. split_and!; try done.
  - simpl. apply list_lookup_insert_eq. by eapply lookup_lt_Some.
  - apply length_insert.
  - intros i Hi. by rewrite list_lookup_insert_ne.
  - apply list_lookup_insert_eq. by eapply lookup_lt_Some.
Qed.

(** ** How the outcome follows from the target set *)

Lemma access_lines_valid_slot E lines tag op num result lines' result' :
  length lines = Z.to_nat E →
  access_lines E lines tag op num result = Ok (lines', result') →
  ∃ k l l', lines !! k = Some l ∧ lines' = <[k := l']> lines ∧
    validbit l' = true ∧ tagbits l' = tag ∧ timestamp l' = num.
Proof.
  intros Hlen H. apply access_lines_cases in H.
  destruct H as [(k & l & Hk & Hl & Hv & Ht & Hp & -> & ->)|
                 [(k & l & Hk & Hl & Hv & Hp & -> & ->)|
                  (k & l & Hl & Hp & Hk & -> & ->)]].
  - exists k, l, (hit_line l op num). split_and!; try done.
    + by rewrite hit_line_validbit.
    + by rewrite hit_line_tagbits.
    + apply hit_line_timestamp.
  - exists k, l, (placed_line l tag op num true). split_and!; try done.
    + by rewrite placed_line_validbit.
    + apply placed_line_tagbits.
    + apply placed_line_timestamp.
  - exists k, l, (placed_line l tag op num false). split_and!; try done.
    + rewrite placed_line_validbit. simpl.
      by destruct (full_slot_valid E lines tag k l).
    + apply placed_line_tagbits.
    + apply placed_line_timestamp.
Qed.

Lemma access_lines_outcome E lines tag op num lines' o :
  length lines = Z.to_nat E → valid_prefix lines →
  access_lines E lines tag op num no_flags = Ok (lines', o) →
  (r_hit o = true ↔
     ∃ i l, lines !! i = Some l ∧ validbit l = true ∧ tagbits l = tag) ∧
  (r_eviction o = true ↔
     ∀ i l, lines !! i = Some l → validbit l = true ∧ tagbits l ≠ tag).
Proof.
  intros Hlen Hpre H. apply access_lines_cases in H.
  destruct H as [(k & l & Hk & Hl & Hv & Ht & Hp & -> & ->)|
                 [(k & l & Hk & Hl & Hv & Hp & -> & ->)|
                  (k & l & Hl & Hp & Hk & -> & ->)]].
  - assert (r_hit (hit_result l op no_flags) = true ∧
            r_eviction (hit_result l op no_flags) = false) as [-> ->].
    { unfold hit_result. by destruct (is_store op && _). }
    split; split; try done.
    + intros _. eauto.
    + intros Hall. destruct (Hall k l Hl) as [_ ?]. done.
  - assert (r_hit (placed_result l op no_flags true) = false ∧
            r_eviction (placed_result l op no_flags true) = false) as [-> ->].
    { unfold placed_result. by destruct (is_store op). }
    split; split; try done.
    + intros (i & li & Hi & Hvi & Hti).
      destruct (decide (i < k)%nat) as [Hlt|Hge].
      * destruct (Hp i Hlt) as (li' & Hi' & _ & ?). congruence.
      * destruct (decide (i = k)) as [->|Hne]; [congruence|].
        destruct (Hpre i k li Hi Hvi ltac:(lia)) as (lk & ? & ?). congruence.
    + intros Hall. destruct (Hall k l Hl) as [? _]. congruence.
  - assert (r_hit (placed_result l op no_flags false) = false ∧
            r_eviction (placed_result l op no_flags false) = true) as [-> ->].
    { unfold placed_result. by destruct (is_store op), (dirtybit l). }
    split; split; try done.
    + intros (i & li & Hi & Hvi & Hti).
      by destruct (full_slot_valid E lines tag i li).
    + intros _ i li Hi. by apply (full_slot_valid E lines tag i li).
Qed.

(** X4: in a reachable state the outcome of an access is read off the
    target set as a whole: it is a hit exactly when some valid line of the
    set has the tag, wherever the line stands, a miss exactly when none
    has, and an eviction exactly when, besides, no line of the set is
    left that is not valid. *)
Theorem outcome_from_target_set c address op num c' o :
  reachable c →
  isInCache address c op num no_flags = Ok (c', o) →
  (r_hit o = true ↔ present c address) ∧
  (r_miss o = true ↔ ¬ present c address) ∧
  (r_eviction o = true ↔ set_full c address ∧ ¬ present c address).
Proof.
  intros Hr H. destruct (reachable_inv c Hr) as [Hshape Hinv].
  destruct (isInCache_flags _ _ _ _ _ _ H) as [Hhm _].
  apply isInCache_Ok in H as (lines & lines' & Hset & Hacc & _).
  destruct (Hinv _ _ Hset) as (Hpre & _).
  destruct (access_lines_outcome _ _ _ _ _ _ _ (Hshape _ _ Hset) Hpre Hacc)
    as [Hhit Hev].
  assert (present c address ↔
    ∃ i l, lines !! i = Some l ∧ validbit l = true ∧
      tagbits l = tag_of c address) as Hpres.
  { split.
    - intros (lines0 & i & l & Hset0 & Hi & Hv & Ht).
      rewrite Hset in Hset0. injection Hset0 as <-. eauto.
    - intros (i & l & Hi & Hv & Ht). by exists lines, i, l. }
  split_and!.
  - by rewrite Hhit, Hpres.
  - rewrite Hpres, <- Hhit, Hhm. by destruct (r_miss o).
  - rewrite Hev, Hpres. split.
    + intros Hall. split.
      * intros lines0 i l Hset0 Hi.
        rewrite Hset in Hset0. injection Hset0 as <-.
        by destruct (Hall i l Hi).
      * intros (i & l & Hi & Hv & Ht). by destruct (Hall i l Hi).
    + intros [Hfull Hno] i l Hi. split; [by eapply Hfull|].
      intros Ht. apply Hno. exists i, l. split_and!; try done.
      by eapply Hfull.
Qed.

(** ** The number of valid lines *)

Lemma valid_count_insert (lines : LineSet) k l l' :
  lines !! k = Some l →
  valid_count (<[k := l']> lines) =
    valid_count lines - b2z (validbit l) + b2z (validbit l').
Proof.
  revert k. induction lines as [|x lines IH]; intros [|k] Hk; try done; simpl in *.
  - injection Hk as ->. lia.
  - rewrite (IH k Hk). lia.
Qed.

Lemma valid_total_insert (ss : list LineSet) set lines lines' :
  ss !! set = Some lines →
  valid_total (<[set := lines']> ss) =
    valid_total ss - valid_count lines + valid_count lines'.
Proof.
  revert set. induction ss as [|x ss IH]; intros [|set] Hs; try done; simpl in *.
  - injection Hs as ->. lia.
  - rewrite (IH set Hs). lia.
Qed.

Lemma dirty_le_valid_count (lines : LineSet) :
  0 ≤ dirty_count lines ≤ valid_count lines ∧
  valid_count lines ≤ Z.of_nat (length lines).
Proof.
  induction lines as [|x lines IH]; simpl; [lia|].
  unfold is_dirty, b2z. destruct (validbit x), (dirtybit x); simpl; lia.
Qed.

Lemma dirty_le_valid_total (ss : list LineSet) E :
  (∀ set lines, ss !! set = Some lines → length lines = E) →
  0 ≤ dirty_total ss ≤ valid_total ss ∧
  valid_total ss ≤ Z.of_nat (length ss) * Z.of_nat E.
Proof.
  induction ss as [|x ss IH]; intros Hlen; simpl; [lia|].
  destruct IH as [IH1 IH2].
  { intros set lines Hl. by apply (Hlen (Datatypes.S set)). }
  pose proof (dirty_le_valid_count x) as [Hx1 Hx2].
  rewrite (Hlen 0%nat x eq_refl) in Hx2. split; [lia|]. nia.
Qed.

Lemma access_lines_valid_count E lines tag op num lines' o :
  length lines = Z.to_nat E →
  access_lines E lines tag op num no_flags = Ok (lines', o) →
  valid_count lines' = valid_count lines + b2z (r_miss o) - b2z (r_eviction o).
Proof.
  intros Hlen H. apply access_lines_cases in H.
  destruct H as [(k & l & Hk & Hl & Hv & Ht & Hp & -> & ->)|
                 [(k & l & Hk & Hl & Hv & Hp & -> & ->)|
                  (k & l & Hl & Hp & Hk & -> & ->)]];
    rewrite (valid_count_insert _ _ _ _ Hl).
  - rewrite hit_line_validbit. unfold hit_result.
    destruct (is_store op && _); simpl; lia.
  - rewrite placed_line_validbit, Hv. unfold placed_result.
    destruct (is_store op); simpl; lia.
  - rewrite placed_line_validbit. simpl. unfold placed_result.
    destruct (is_store op), (dirtybit l); simpl; lia.
Qed.

Lemma isInCache_valid_total address c op num c' o :
  well_shaped c →
  isInCache address c op num no_flags = Ok (c', o) →
  valid_total (sets c') =
    valid_total (sets c) + b2z (r_miss o) - b2z (r_eviction o).
Proof.
  intros Hshape H.
  apply isInCache_Ok in H as (lines & lines' & Hset & Hacc & ->). simpl.
  rewrite (valid_total_insert _ _ _ _ Hset).
  rewrite (access_lines_valid_count _ _ _ _ _ _ _ (Hshape _ _ Hset) Hacc). lia.
Qed.

Lemma valid_total_makeCache hdr : valid_total (sets (makeCache hdr)) = 0.
Proof.
  assert (∀ m, valid_count (replicate m empty_line) = 0) as Hset.
  { induction m as [|m IHm]; simpl; [done|]. by rewrite IHm. }
  simpl. induction (Z.to_nat (cS hdr)) as [|n IH]; simpl; [done|].
  by rewrite IH, Hset.
Qed.

(** X5: at every point of a replay, [misses - evictions] is the number of
    valid lines of the cache: a miss that evicts nothing fills one line,
    and no line stops being valid.  So the difference is at most the
    [S * E] lines of the cache, and the dirty lines are among the valid
    ones. *)
Theorem misses_minus_evictions_counts_valid_lines hdr trace r :
  incrementStats trace zero_stats (makeCache hdr) = Ok r →
  misses (run_stats r) - evictions (run_stats r) =
    valid_total (sets (run_cache r)) ∧
  0 ≤ dirty_total (sets (run_cache r)) ≤ valid_total (sets (run_cache r)) ∧
  valid_total (sets (run_cache r)) ≤ Z.max 0 (cS hdr) * Z.max 0 (cE hdr).
Proof.
  intros Hr. unfold incrementStats in Hr.
  apply (replay_invariant (λ st c,
    cache_inv c ∧ cE c = cE hdr ∧ length (sets c) = Z.to_nat (cS hdr) ∧
    misses st - evictions st = valid_total (sets c))) in Hr.
  - destruct Hr as ([Hshape _] & HE & Hlen & Hcount).
    split; [done|].
    destruct (dirty_le_valid_total (sets (run_cache r)) (Z.to_nat (cE hdr)))
      as [? ?].
    { intros set lines Hl. rewrite <- HE. by eapply Hshape. }
    split; [done|]. rewrite Hlen in *. lia.
  - clear. intros stats c a n c' o (Hinv & HE & Hlen & Hcount) Hacc.
    pose proof (isInCache_geometry _ _ _ _ _ _ _ Hacc) as (_ & HE' & _ & _ & _ & Hl).
    split_and!; [by eapply isInCache_inv|congruence|congruence|].
    destruct (count_outcome_fields (cB c') o stats) as (_ & -> & -> & _).
    destruct Hinv as [Hshape _].
    rewrite (isInCache_valid_total _ _ _ _ _ _ Hshape Hacc). lia.
  - split_and!; [apply makeCache_inv|done|by simpl; rewrite length_replicate|].
    by rewrite valid_total_makeCache.
Qed.

(** ** Lines that were never filled *)

Lemma isInCache_pristine address c op num result c' result' :
  well_shaped c →
  isInCache address c op num result = Ok (c', result') →
  pristine c → pristine c'.
Proof.
  intros Hshape H Hp set ls i l0 Hls Hi Hv.
  apply isInCache_Ok in H as (lines & lines' & Hset & Hacc & ->). simpl in Hls.
  apply list_lookup_insert_Some in Hls as [(_ & <- & _)|(_ & Hls)]; [|eauto].
  destruct (access_lines_valid_slot _ _ _ _ _ _ _ _ (Hshape _ _ Hset) Hacc)
    as (k & l & l' & Hl & -> & Hv' & _).
  apply list_lookup_insert_Some in Hi as [(_ & <- & _)|(_ & Hi)];
    [congruence | eauto].
Qed.

(** X6: in every reachable state a line that is not valid is exactly as
    [makeCache] left it: tag 0, clean, timestamp 0.  No call writes to a
    line without making it valid, and none makes a valid line invalid. *)
Theorem reachable_invalid_lines_untouched c :
  reachable c →
  pristine c ∧
  ∀ address op num result c' result' set lines i l,
    isInCache address c op num result = Ok (c', result') →
    sets c !! set = Some lines → lines !! i = Some l → validbit l = true →
    ∃ lines' l', sets c' !! set = Some lines' ∧ lines' !! i = Some l' ∧
      validbit l' = true.
Proof.
  intros Hr. split.
  - induction Hr as [hdr|c address op num result c' result' Hr IH H].
    + intros set lines i l Hl Hi _. simpl in Hl.
      apply lookup_replicate in Hl as [-> _].
      by apply lookup_replicate in Hi as [-> _].
    + eapply isInCache_pristine; eauto. by destruct (reachable_inv c Hr).
  - intros address op num result c' result' set lines i l H Hl Hi Hv.
    apply isInCache_frame in H
      as (lines0 & k & l0 & l' & Hset & Hl0 & -> & _ & _ & Hv'). simpl.
    destruct (decide (set = Z.to_nat (set_of c address))) as [->|Hne].
    + rewrite Hset in Hl. injection Hl as <-.
      exists (<[k := l']> lines0).
      rewrite list_lookup_insert_eq by (by eapply lookup_lt_Some).
      destruct (decide (i = k)) as [->|Hik].
      * exists l'. rewrite list_lookup_insert_eq by (by eapply lookup_lt_Some).
        split_and!; try done. apply Hv'. congruence.
      * exists l. by rewrite list_lookup_insert_ne.
    + exists lines, l. by rewrite list_lookup_insert_ne.
Qed.

(** ** The tags a set has received *)

Lemma tags_to_app hdr set pre post :
  tags_to hdr set (pre ++ post) = tags_to hdr set pre ++ tags_to hdr set post.
Proof. unfold tags_to. by rewrite filter_app, fmap_app. Qed.

Lemma tags_to_here hdr a :
  tags_to hdr (Z.to_nat (set_of hdr (t_address a))) [a] =
    [tag_of hdr (t_address a)].
Proof.
  unfold tags_to. rewrite filter_cons_True by done. by rewrite filter_nil.
Qed.

Lemma isInCache_tags_seen hdr pre a c op num result c' result' :
  cs c = cs hdr → cb c = cb hdr →
  tags_seen hdr c pre →
  isInCache (t_address a) c op num result = Ok (c', result') →
  tags_seen hdr c' (pre ++ [a]).
Proof.
  intros Hs Hb Hseen H set ls i l0 Hls Hi Hv.
  rewrite tags_to_app. apply elem_of_app.
  apply isInCache_frame in H
    as (lines & k & l & l' & Hset & Hl & -> & Ht & _ & _). simpl in Hls.
  rewrite (set_of_geometry hdr c) in Hls by done.
  rewrite (tag_of_geometry hdr c) in Ht by done.
  apply list_lookup_insert_Some in Hls as [(<- & <- & _)|(_ & Hls)];
    [|left; by eapply Hseen].
  apply list_lookup_insert_Some in Hi as [(_ & <- & _)|(_ & Hi)].
  - right. rewrite tags_to_here, Ht. apply list_elem_of_singleton. done.
  - left. eapply Hseen; eauto.
    by rewrite <- (set_of_geometry hdr c).
Qed.

Lemma makeCache_tags_seen hdr : tags_seen hdr (makeCache hdr) [].
Proof.
  intros set lines i l Hl Hi Hv. simpl in Hl.
  apply lookup_replicate in Hl as [-> _].
  by apply lookup_replicate in Hi as [-> _].
Qed.

Lemma replay_tags_seen hdr post pre stats c n r :
  cs c = cs hdr → cb c = cb hdr →
  tags_seen hdr c pre →
  replay post stats c n = Ok r →
  cs (run_cache r) = cs hdr ∧ cb (run_cache r) = cb hdr ∧
  tags_seen hdr (run_cache r) (pre ++ post).
Proof.
  revert pre stats c n.
  induction post as [|a post IH]; intros pre stats c n Hs Hb Hseen; simpl.
  - intros [= <-]. by rewrite app_nil_r.
  - destruct (isInCache _ _ _ _ _) as [[c' o]|] eqn:Hacc; [|done].
    pose proof (isInCache_geometry _ _ _ _ _ _ _ Hacc) as (_ & _ & _ & Hs' & Hb' & _).
    intros Hr. apply (IH (pre ++ [a])) in Hr.
    + by rewrite <- app_assoc in Hr.
    + congruence.
    + congruence.
    + by eapply isInCache_tags_seen.
Qed.

(** The tags of a set whose lines are all valid, with a tag that none of
    them has: so many different tags. *)
Lemma full_set_tags (lines : LineSet) tag (seen : list Z) :
  distinct_tags lines →
  (∀ i l, lines !! i = Some l → validbit l = true ∧ tagbits l ≠ tag) →
  (∀ i l, lines !! i = Some l → tagbits l ∈ seen) →
  tag ∈ seen →
  (length lines < length (remove_dups seen))%nat.
Proof.
  intros Hd Hfull Hseen Htag.
  assert (NoDup (tag :: (tagbits <$> lines))) as Hnd.
  { apply NoDup_cons. split.
    - intros Hin. apply list_elem_of_fmap in Hin as (l & -> & Hl).
      apply list_elem_of_lookup in Hl as [i Hi].
      by destruct (Hfull i l Hi).
    - apply NoDup_alt. intros i j x Hi Hj.
      rewrite list_lookup_fmap in Hi, Hj.
      destruct (lines !! i) as [li|] eqn:Hli; [|done].
      destruct (lines !! j) as [lj|] eqn:Hlj; [|done].
      simpl in Hi, Hj. injection Hi as Hi. injection Hj as Hj.
      destruct (Hfull i li Hli), (Hfull j lj Hlj).
      apply (Hd i j li lj); congruence. }
  assert (tag :: (tagbits <$> lines) ⊆+ remove_dups seen) as Hsub.
  { apply NoDup_submseteq; [done|]. intros x Hx.
    apply elem_of_remove_dups.
    apply elem_of_cons in Hx as [->|Hx]; [done|].
    apply list_elem_of_fmap in Hx as (l & -> & Hl).
    apply list_elem_of_lookup in Hl as [i Hi]. by eapply Hseen. }
  apply submseteq_length in Hsub. simpl in Hsub.
  rewrite length_fmap in Hsub. lia.
Qed.

Lemma replay_without_eviction hdr post pre stats c n r :
  cs c = cs hdr → cb c = cb hdr → cE c = cE hdr →
  cache_inv c → tags_seen hdr c pre →
  (∀ set, (length (remove_dups (tags_to hdr set (pre ++ post))) ≤
             Z.to_nat (cE hdr))%nat) →
  replay post stats c n = Ok r →
  evictions (run_stats r) = evictions stats.
Proof.
  revert pre stats c n.
  induction post as [|a post IH]; intros pre stats c n Hs Hb HE Hinv Hseen Hfew;
    simpl.
  - by intros [= <-].
  - destruct (isInCache _ _ _ _ _) as [[c' o]|] eqn:Hacc; [|done].
    pose proof (isInCache_geometry _ _ _ _ _ _ _ Hacc)
      as (_ & HE' & _ & Hs' & Hb' & _).
    assert (r_eviction o = false) as Hev.
    { destruct (r_eviction o) eqn:Hev; [exfalso|done].
      destruct Hinv as [Hshape Hinv].
      pose proof Hacc as Hacc0.
      apply isInCache_Ok in Hacc0 as (lines & lines' & Hset & Hal & _).
      destruct (Hinv _ _ Hset) as (Hpre & Hd & _).
      pose proof (Hshape _ _ Hset) as Hlen.
      destruct (access_lines_outcome _ _ _ _ _ _ _ Hlen Hpre Hal) as [_ Hfull].
      pose proof (proj1 Hfull Hev) as Hall. clear Hev. rename Hall into Hev.
      pose proof (full_set_tags lines (tag_of c (t_address a))
        (tags_to hdr (Z.to_nat (set_of c (t_address a))) (pre ++ a :: post))
        Hd Hev) as Hmany.
      specialize (Hfew (Z.to_nat (set_of c (t_address a)))).
      rewrite Hlen, HE in Hmany.
      enough (Z.to_nat (cE hdr) < length (remove_dups (tags_to hdr
        (Z.to_nat (set_of c (t_address a))) (pre ++ a :: post))))%nat by lia.
      apply Hmany.
      - intros i l Hi. rewrite tags_to_app. apply elem_of_app. left.
        eapply Hseen; eauto. by destruct (Hev i l Hi).
      - rewrite tags_to_app. apply elem_of_app. right.
        rewrite (set_of_geometry hdr c), (tag_of_geometry hdr c) by done.
        unfold tags_to. rewrite filter_cons_True by done.
        rewrite fmap_cons. apply elem_of_cons. by left. }
    intros Hr. apply (IH (pre ++ [a])) in Hr.
    + rewrite Hr.
      destruct (count_outcome_fields (cB c') o stats) as (_ & _ & -> & _).
      rewrite Hev. simpl. lia.
    + congruence.
    + congruence.
    + congruence.
    + by eapply isInCache_inv.
    + by eapply isInCache_tags_seen.
    + intros set. rewrite <- app_assoc. apply Hfew.
Qed.

(** X7: when no set receives more than [E] different tags in the whole
    trace, the replay evicts nothing. *)
Theorem few_tags_no_eviction hdr trace r :
  (∀ set, (length (remove_dups (tags_to hdr set trace)) ≤ Z.to_nat (cE hdr))%nat) →
  incrementStats trace zero_stats (makeCache hdr) = Ok r →
  evictions (run_stats r) = 0.
Proof.
  intros Hfew Hr. unfold incrementStats in Hr.
  apply (replay_without_eviction hdr trace []) in Hr; try done.
  - apply makeCache_inv.
  - apply makeCache_tags_seen.
Qed.

(** X8: the first access to a block is a miss: when no earlier record of
    the replay went to the same set with the same tag, the access made for
    the next record does not hit. *)
Theorem first_access_to_a_block_misses hdr pre a r c' o :
  incrementStats pre zero_stats (makeCache hdr) = Ok r →
  tag_of hdr (t_address a) ∉
    tags_to hdr (Z.to_nat (set_of hdr (t_address a))) pre →
  isInCache (t_address a) (run_cache r) (t_instruction a) (run_linenum r)
    no_flags = Ok (c', o) →
  r_hit o = false ∧ r_miss o = true.
Proof.
  intros Hr Hnew Hacc. unfold incrementStats in Hr.
  apply (replay_tags_seen hdr pre []) in Hr as (Hs & Hb & Hseen);
    [|done|done|apply makeCache_tags_seen].
  simpl in Hseen.
  destruct (isInCache_flags _ _ _ _ _ _ Hacc) as [Hhm _].
  assert (r_hit o = false) as Hhit; [|by rewrite Hhit in Hhm; destruct (r_miss o)].
  destruct (r_hit o) eqn:Hhit; [exfalso|done].
  apply isInCache_Ok in Hacc as (lines & lines' & Hset & Hal & _).
  apply access_lines_cases in Hal.
  destruct Hal as [(k & l & Hk & Hl & Hv & Ht & Hp & -> & ->)|
                   [(k & l & Hk & Hl & Hv & Hp & -> & ->)|
                    (k & l & Hl & Hp & Hk & -> & ->)]].
  - apply Hnew. rewrite (tag_of_geometry hdr (run_cache r)) in Ht by done.
    rewrite (set_of_geometry hdr (run_cache r)) in Hset by done.
    rewrite <- Ht. eapply Hseen; eauto.
  - unfold placed_result in Hhit. by destruct (is_store _).
  - unfold placed_result in Hhit. by destruct (is_store _), (dirtybit l).
Qed.

(** ** Traces without stores *)

Lemma isInCache_load address c op num c' o :
  is_store op = false → all_clean c →
  isInCache address c op num no_flags = Ok (c', o) →
  all_clean c' ∧ r_dirty o = false ∧ r_dirty_eviction o = false.
Proof.
  intros Hop Hclean H.
  apply isInCache_Ok in H as (lines & lines' & Hset & Hacc & ->).
  assert (∀ k l', dirtybit l' = false →
    all_clean (with_sets c
      (<[Z.to_nat (set_of c address) := <[k := l']> lines]> (sets c)))) as Hins.
  { intros k l' Hd set ls i l0 Hls Hi. simpl in Hls.
    apply list_lookup_insert_Some in Hls as [(_ & <- & _)|(_ & Hls)]; [|eauto].
    apply list_lookup_insert_Some in Hi as [(_ & <- & _)|(_ & Hi)]; eauto. }
  apply access_lines_cases in Hacc.
  destruct Hacc as [(k & l & Hk & Hl & Hv & Ht & Hp & -> & ->)|
                    [(k & l & Hk & Hl & Hv & Hp & -> & ->)|
                     (k & l & Hl & Hp & Hk & -> & ->)]];
    pose proof (Hclean _ _ _ _ Hset Hl) as Hd.
  - unfold hit_line, hit_result. rewrite Hop. simpl.
    split; [|done]. by apply Hins.
  - split; [apply Hins; by rewrite placed_line_dirtybit, Hop, Hd|].
    unfold placed_result. by rewrite Hop.
  - split; [apply Hins; by rewrite placed_line_dirtybit, Hop|].
    unfold placed_result. by rewrite Hop, Hd.
Qed.

(** X9: only a store makes a line dirty: a trace with no ['S'] record
    ends with no dirty line, [dirty_bytes = 0] and [dirty_evictions = 0],
    whatever it evicted. *)
Theorem loads_leave_the_cache_clean hdr trace r :
  no_store trace →
  incrementStats trace zero_stats (makeCache hdr) = Ok r →
  all_clean (run_cache r) ∧
  dirty_bytes (run_stats r) = 0 ∧ dirty_evictions (run_stats r) = 0.
Proof.
  unfold incrementStats. intros Hloads.
  assert (∀ stats c n,
    all_clean c → dirty_bytes stats = 0 → dirty_evictions stats = 0 →
    replay trace stats c n = Ok r →
    all_clean (run_cache r) ∧
    dirty_bytes (run_stats r) = 0 ∧ dirty_evictions (run_stats r) = 0) as Hgen.
  { induction Hloads as [|a trace Ha _ IH]; intros stats c n Hc Hb He; simpl.
    - by intros [= <-].
    - destruct (isInCache _ _ _ _ _) as [[c' o]|] eqn:Hacc; [|done].
      destruct (isInCache_load _ _ _ _ _ _ Ha Hc Hacc) as (Hc' & Hd & Hde).
      destruct (count_outcome_fields (cB c') o stats) as (_ & _ & _ & Hdb & Hdev).
      rewrite Hd, Hde in Hdb. rewrite Hde in Hdev. simpl in Hdb, Hdev.
      apply IH; [done|lia|lia]. }
  apply Hgen; try done.
  intros set lines i l Hl Hi. simpl in Hl.
  apply lookup_replicate in Hl as [-> _].
  by apply lookup_replicate in Hi as [-> _].
Qed.

(** ** Loads and stores take the same path *)

Lemma scan_clean n lines tag op num result i index oldest :
  scan n (clean_line <$> lines) tag "L" num (drop_dirty result) i index oldest =
    match scan n lines tag op num result i index oldest with
    | Ok ex => Ok (clean_exit ex)
    | Crash f => Crash f
    end.
Proof.
  revert i index oldest. induction n as [|n IH]; intros i index oldest; simpl.
  - done.
  - rewrite list_lookup_fmap.
    destruct (lines !! i) as [l|] eqn:Hl; simpl; [|done].
    destruct ((tagbits l =? tag) && validbit l).
    { destruct (is_store op && negb (dirtybit l)); simpl;
        by rewrite list_fmap_insert. }
    destruct (negb (validbit l)); [done|].
    destruct (timestamp l <? oldest); apply IH.
Qed.

Lemma place_clean lines tag op num result notFull index :
  place (clean_line <$> lines) tag "L" num (drop_dirty result) notFull index =
    match place lines tag op num result notFull index with
    | Ok (lines', result') => Ok (clean_line <$> lines', drop_dirty result')
    | Crash f => Crash f
    end.
Proof.
  unfold place. rewrite list_lookup_fmap.
  destruct (lines !! index) as [l|] eqn:Hl; simpl; [|done].
  destruct notFull, (dirtybit l), (is_store op); simpl;
    by rewrite list_fmap_insert.
Qed.

Lemma access_lines_clean E lines tag op num result :
  access_lines E (clean_line <$> lines) tag "L" num (drop_dirty result) =
    match access_lines E lines tag op num result with
    | Ok (lines', result') => Ok (clean_line <$> lines', drop_dirty result')
    | Crash f => Crash f
    end.
Proof.
  unfold access_lines. rewrite (scan_clean _ _ _ op).
  destruct (scan _ _ _ _ _ _ _ _ _) as [[lines' result'|notFull index]|]; simpl;
    [done| |done].
  apply place_clean.
Qed.

Lemma isInCache_clean address c op num result :
  isInCache address (clean_copy c) "L" num (drop_dirty result) =
    match isInCache address c op num result with
    | Ok (c', result') => Ok (clean_copy c', drop_dirty result')
    | Crash f => Crash f
    end.
Proof.
  unfold isInCache.
  change (set_of (clean_copy c) address) with (set_of c address).
  change (tag_of (clean_copy c) address) with (tag_of c address).
  change (cE (clean_copy c)) with (cE c).
  change (sets (clean_copy c)) with (fmap (M:=list) clean_line <$> sets c).
  rewrite list_lookup_fmap.
  destruct (sets c !! _) as [lines|] eqn:Hset; simpl; [|done].
  rewrite (access_lines_clean _ _ _ op).
  destruct (access_lines _ _ _ _ _ _) as [[lines' result']|]; [|done].
  unfold clean_copy, with_sets. simpl. by rewrite list_fmap_insert.
Qed.

Lemma isInCache_clean_reset address c op num :
  isInCache address (clean_copy c) "L" num no_flags =
    match isInCache address c op num no_flags with
    | Ok (c', result') => Ok (clean_copy c', drop_dirty result')
    | Crash f => Crash f
    end.
Proof. exact (isInCache_clean address c op num no_flags). Qed.

Lemma replay_clean trace stats1 stats2 c n :
  hits stats1 = hits stats2 → misses stats1 = misses stats2 →
  evictions stats1 = evictions stats2 →
  match replay trace stats1 c n,
        replay (as_loads trace) stats2 (clean_copy c) n with
  | Ok r1, Ok r2 =>
    hits (run_stats r1) = hits (run_stats r2) ∧
    misses (run_stats r1) = misses (run_stats r2) ∧
    evictions (run_stats r1) = evictions (run_stats r2) ∧
    run_cache r2 = clean_copy (run_cache r1)
  | Crash f1, Crash f2 => f1 = f2
  | _, _ => False
  end.
Proof.
  revert stats1 stats2 c n.
  induction trace as [|a trace IH]; intros stats1 stats2 c n Hh Hm He; simpl.
  - done.
  - rewrite (isInCache_clean_reset _ _ (t_instruction a)).
    destruct (isInCache _ _ _ _ _) as [[c' o]|]; [|done].
    destruct (count_outcome_fields (cB c') o stats1) as (Hh1 & Hm1 & He1 & _).
    destruct (count_outcome_fields (cB (clean_copy c')) (drop_dirty o) stats2)
      as (Hh2 & Hm2 & He2 & _).
    apply IH; [rewrite Hh1, Hh2|rewrite Hm1, Hm2|rewrite He1, He2];
      simpl; congruence.
Qed.

Lemma clean_copy_makeCache hdr : clean_copy (makeCache hdr) = makeCache hdr.
Proof.
  unfold clean_copy, makeCache, with_sets. simpl.
  by rewrite !fmap_replicate.
Qed.

(** X10: hits, misses and evictions depend on the addresses only: two
    traces with the same addresses, whatever the operations and the
    sizes, end with the same three counters and with caches that differ in
    dirty bits at most (or stop at the same out-of-bounds index).  A store
    that misses is placed exactly as a load is. *)
Theorem traffic_ignores_operations hdr t1 t2 :
  t_address <$> t1 = t_address <$> t2 →
  same_traffic (incrementStats t1 zero_stats (makeCache hdr))
               (incrementStats t2 zero_stats (makeCache hdr)).
Proof.
  intros Haddr. unfold incrementStats.
  assert (as_loads t1 = as_loads t2) as Hloads.
  { assert (∀ t, as_loads t = (λ x, mkAccess "L" x 0) <$> (t_address <$> t)) as Hvia.
    { intros t. unfold as_loads. by rewrite <- list_fmap_compose. }
    by rewrite !Hvia, Haddr. }
  pose proof (replay_clean t1 zero_stats zero_stats (makeCache hdr) 0
    eq_refl eq_refl eq_refl) as H1.
  pose proof (replay_clean t2 zero_stats zero_stats (makeCache hdr) 0
    eq_refl eq_refl eq_refl) as H2.
  rewrite clean_copy_makeCache in H1, H2. rewrite Hloads in H1.
  unfold same_traffic.
  destruct (replay t1 _ _ _) as [r1|f1], (replay t2 _ _ _) as [r2|f2],
    (replay (as_loads t2) _ _ _) as [r0|f0]; try done.
  - destruct H1 as (? & ? & ? & ?), H2 as (? & ? & ? & ?).
    split_and!; congruence.
  - congruence.
Qed.

(** ** Block numbers *)

Lemma block_number c address :
  0 ≤ cs c → 0 ≤ cb c → cs c + cb c < 64 →
  Z.shiftr address (cb c) = tag_of c address * 2 ^ cs c + set_of c address.
Proof.
  intros Hs Hb Hsb.
  rewrite tag_of_defined by done.
  assert (set_of c address = Z.shiftr address (cb c) mod 2 ^ cs c) as ->.
  { destruct (decide (cs c = 0)) as [H0|Hne].
    - rewrite set_of_zero, H0 by done. simpl. by rewrite Z.mod_1_r.
    - apply set_of_defined; lia. }
  rewrite (Z.add_comm (cs c)), <- Z.shiftr_shiftr by done.
  rewrite (Z.shiftr_div_pow2 _ (cs c)) by done.
  pose proof (Z.div_mod (Z.shiftr address (cb c)) (2 ^ cs c)). lia.
Qed.

Lemma same_block c a1 a2 :
  0 ≤ cs c → 0 ≤ cb c → cs c + cb c < 64 →
  Z.shiftr a1 (cb c) = Z.shiftr a2 (cb c) →
  tag_of c a1 = tag_of c a2 ∧ set_of c a1 = set_of c a2.
Proof.
  intros Hs Hb Hsb Hblock. split.
  - rewrite !tag_of_defined by done.
    rewrite (Z.add_comm (cs c)), <- !Z.shiftr_shiftr by done. by rewrite Hblock.
  - destruct (decide (cs c = 0)) as [H0|Hne].
    + by rewrite !set_of_zero.
    + rewrite !set_of_defined by lia. by rewrite Hblock.
Qed.

(** X11: with [s + b < 64] the tag and the set index together are the block
    number: [address >> b = tag * 2^s + set_index].  So two addresses have
    the same tag and the same set index exactly when they are in the same
    block: a hit is never on another block, and no access to a resident
    block misses because of its offset. *)
Theorem tag_and_set_are_the_block c a1 a2 :
  0 ≤ cs c → 0 ≤ cb c → cs c + cb c < 64 →
  Z.shiftr a1 (cb c) = tag_of c a1 * 2 ^ cs c + set_of c a1 ∧
  (tag_of c a1 = tag_of c a2 ∧ set_of c a1 = set_of c a2 ↔
   Z.shiftr a1 (cb c) = Z.shiftr a2 (cb c)).
Proof.
  intros Hs Hb Hsb. split; [by apply block_number|]. split.
  - intros [Ht Hset]. rewrite !block_number by done. by rewrite Ht, Hset.
  - by apply same_block.
Qed.

Lemma isInCache_same_block c a1 a2 op num result :
  tag_of c a1 = tag_of c a2 → set_of c a1 = set_of c a2 →
  isInCache a1 c op num result = isInCache a2 c op num result.
Proof. intros Ht Hs. unfold isInCache. by rewrite Ht, Hs. Qed.

(** X12: with [s + b < 64] the offset of an address within its block
    plays no part: two traces whose records agree on the operation and on
    the block number [address >> b] give the same result. *)
Theorem replay_ignores_offsets hdr t1 t2 :
  0 ≤ cs hdr → 0 ≤ cb hdr → cs hdr + cb hdr < 64 →
  (λ a, (t_instruction a, Z.shiftr (t_address a) (cb hdr))) <$> t1 =
  (λ a, (t_instruction a, Z.shiftr (t_address a) (cb hdr))) <$> t2 →
  incrementStats t1 zero_stats (makeCache hdr) =
    incrementStats t2 zero_stats (makeCache hdr).
Proof.
  intros Hs Hb Hsb. unfold incrementStats.
  assert (cs (makeCache hdr) = cs hdr ∧ cb (makeCache hdr) = cb hdr) as Hgeo
    by done.
  revert Hgeo. generalize zero_stats (makeCache hdr) 0.
  revert t2. induction t1 as [|x t1 IH]; intros [|y t2] stats c n [Hcs Hcb] Hsame;
    try done; simpl in *.
  injection Hsame as Hop Hblock Hrest.
  destruct (same_block c (t_address x) (t_address y)) as [Ht Hset];
    [lia..|congruence|].
  rewrite (isInCache_same_block c _ _ _ _ _ Ht Hset), Hop.
  destruct (isInCache _ _ _ _ _) as [[c' o]|] eqn:Hacc; [|done].
  apply IH; [|done].
  apply isInCache_geometry in Hacc as (_ & _ & _ & ? & ? & _). split; congruence.
Qed.

(** ** Timestamps during a replay *)

Lemma frame_lookup (ss : list LineSet) set k (lines : LineSet) l' s i ls x :
  <[set := <[k := l']> lines]> ss !! s = Some ls → ls !! i = Some x →
  ss !! set = Some lines →
  (s = set ∧ i = k ∧ x = l') ∨ (∃ ls0, ss !! s = Some ls0 ∧ ls0 !! i = Some x).
Proof.
  intros Hls Hi Hset.
  apply list_lookup_insert_Some in Hls as [(<- & <- & _)|(_ & Hls)]; [|eauto].
  apply list_lookup_insert_Some in Hi as [(<- & <- & _)|(_ & Hi)]; eauto.
Qed.

Lemma isInCache_stamps_distinct address c op num result c' result' :
  isInCache address c op num result = Ok (c', result') →
  stamps_below c num → stamps_distinct c → stamps_distinct c'.
Proof.
  intros H Hbelow Hdist set1 set2 ls1 ls2 i j l1 l2 Hls1 Hls2 Hi Hj Hv1 Hv2 Hts.
  apply isInCache_frame in H
    as (lines & k & l & l' & Hset & Hl & -> & _ & Hnum & _). simpl in Hls1, Hls2.
  destruct (frame_lookup _ _ _ _ _ _ _ _ _ Hls1 Hi Hset)
    as [(-> & -> & ->)|(ls1' & Hls1' & Hi')];
  destruct (frame_lookup _ _ _ _ _ _ _ _ _ Hls2 Hj Hset)
    as [(-> & -> & ->)|(ls2' & Hls2' & Hj')]; try done.
  - pose proof (Hbelow _ _ _ _ Hls2' Hj' Hv2). lia.
  - pose proof (Hbelow _ _ _ _ Hls1' Hi' Hv1). lia.
  - by eapply Hdist.
Qed.

Lemma makeCache_stamps hdr :
  stamps_below (makeCache hdr) 0 ∧ stamps_distinct (makeCache hdr).
Proof.
  split.
  - intros set ls i l Hls Hi Hv. simpl in Hls.
    apply lookup_replicate in Hls as [-> _].
    by apply lookup_replicate in Hi as [-> _].
  - intros set1 set2 ls1 ls2 i j l1 l2 Hls1 _ Hi _ Hv1. simpl in Hls1.
    apply lookup_replicate in Hls1 as [-> _].
    by apply lookup_replicate in Hi as [-> _].
Qed.

Lemma replay_clock trace stats c n r :
  0 ≤ n → n + Z.of_nat (length trace) < 2 ^ 31 →
  stamps_below c n → stamps_distinct c →
  replay trace stats c n = Ok r →
  run_linenum r = n + Z.of_nat (length trace) ∧
  stamps_below (run_cache r) (run_linenum r) ∧
  stamps_distinct (run_cache r).
Proof.
  revert stats c n.
  induction trace as [|a trace IH]; intros stats c n Hn Hlen Hold Hdist.
  - simpl. intros [= <-]. simpl. split; [lia|done].
  - simpl. destruct (isInCache _ _ _ _ _) as [[c' o]|] eqn:Hacc; [|done].
    rewrite wrap_int_small by (simpl length in Hlen; lia).
    intros Hr. apply IH in Hr; try (simpl length in Hlen; lia).
    + destruct Hr as (-> & ? & ?). split; [simpl length; lia | done].
    + by eapply isInCache_stamps.
    + by eapply isInCache_stamps_distinct.
Qed.

(** X13: in the replay of fewer than 2^31 records no two valid lines of
    the cache carry the same timestamp, and every timestamp is the index
    of an earlier record: the oldest line of a set is always a single
    line, so the tie-break of the scan never comes into play. *)
Theorem replay_timestamps_are_distinct hdr trace r :
  Z.of_nat (length trace) < 2 ^ 31 →
  incrementStats trace zero_stats (makeCache hdr) = Ok r →
  stamps_distinct (run_cache r) ∧
  stamps_below (run_cache r) (Z.of_nat (length trace)).
Proof.
  intros Hlen Hr. unfold incrementStats in Hr.
  destruct (makeCache_stamps hdr) as [Hbelow Hdist].
  apply replay_clock in Hr as (Hclock & Hb & Hd); [|lia|lia|done|done].
  split; [done|]. rewrite Hclock in Hb. by rewrite Z.add_0_l in Hb.
Qed.

(** ** The line used last is not the one replaced *)

Lemma access_lines_evicts_oldest E lines tag op num lines' o j lj :
  access_lines E lines tag op num no_flags = Ok (lines', o) →
  r_eviction o = true →
  lines !! j = Some lj → timestamp lj < num →
  (j < Z.to_nat E)%nat →
  ∃ k l, oldest_first (take (Z.to_nat E) lines) k ∧ lines !! k = Some l ∧
    lines' = <[k := placed_line l tag op num false]> lines.
Proof.
  unfold access_lines. intros H Hev Hj Hlt HjE.
  destruct (scan _ _ _ _ _ _ _ _ _) as [[lines1 o1|notFull k]|] eqn:Hs; [| |done].
  - injection H as <- <-.
    apply scan_exit in Hs as (k & l & _ & _ & _ & _ & _ & _ & ->).
    unfold hit_result in Hev. by destruct (is_store op && _).
  - destruct (lines !! k) as [l|] eqn:Hl; [|unfold place in H; by rewrite Hl in H].
    rewrite (place_eq _ _ _ _ _ _ _ _ Hl) in H. injection H as <- <-.
    destruct notFull.
    { unfold placed_result in Hev. by destruct (is_store op). }
    exists k, l. split_and!; [|done|done].
    apply scan_oldest in Hs.
    destruct Hs as [[-> Hall]|(lk & Hk & Hlk & Hold & Hall)].
    + pose proof (Hall j lj ltac:(lia) Hj). lia.
    + exists lk. split; [by rewrite lookup_take_lt by lia|].
      intros i li Hi. apply lookup_take_Some in Hi as [Hi HiE].
      apply Hall; [lia|done].
Qed.

Lemma resident_replace (lines : LineSet) tag k l k2 l2 l2' E :
  lines !! k = Some l → validbit l = true → tagbits l = tag →
  (∀ j, (j < k)%nat → passed lines tag j) →
  (k < E)%nat →
  lines !! k2 = Some l2 →
  (k2 = k → validbit l2' = true ∧ tagbits l2' = tag) →
  (k2 ≠ k → (k2 < k)%nat → validbit l2' = true ∧ tagbits l2' ≠ tag) →
  ∃ k0 l0, (k0 < E)%nat ∧ <[k2 := l2']> lines !! k0 = Some l0 ∧
    validbit l0 = true ∧ tagbits l0 = tag ∧
    ∀ j, (j < k0)%nat → passed (<[k2 := l2']> lines) tag j.
Proof.
  intros Hl Hv Ht Hp Hk Hl2 Hsame Hbefore.
  assert (k2 < length lines)%nat as Hk2 by (by eapply lookup_lt_Some).
  exists k.
  assert (∀ j, (j < k)%nat → passed (<[k2 := l2']> lines) tag j) as Hp'.
  { intros j Hj. destruct (decide (j = k2)) as [->|Hne].
    - destruct (Hbefore ltac:(lia) Hj) as [? ?].
      exists l2'. by rewrite list_lookup_insert_eq.
    - apply passed_insert_ne; [done|]. by apply Hp. }
  destruct (decide (k2 = k)) as [->|Hne].
  - destruct (Hsame eq_refl) as [? ?].
    exists l2'. rewrite list_lookup_insert_eq by done. by split_and!.
  - exists l. rewrite list_lookup_insert_ne by done. by split_and!.
Qed.

Lemma isInCache_keeps_newest address c address2 op num c' o :
  2 ≤ cE c → cache_inv c →
  stamps_below c (num + 1) → stamps_distinct c →
  resident_since c address num →
  isInCache address2 c op (num + 1) no_flags = Ok (c', o) →
  resident c' address.
Proof.
  intros HE [Hshape Hinv] Hbelow Hdist
    (lines & k & l & Hset & Hk & Hl & Hv & Ht & Hts & Hp) H.
  destruct (decide (set_of c address2 = set_of c address)) as [Heq|Hne].
  2: { eapply isInCache_other_set; [exact Hne|exact H|].
       by exists lines, k, l. }
  apply isInCache_Ok in H as (lines0 & lines' & Hset0 & Hacc & ->).
  rewrite Heq, Hset in Hset0. injection Hset0 as <-.
  pose proof (Hshape _ _ Hset) as Hlen.
  destruct (Hinv _ _ Hset) as (Hpre & _).
  assert (∃ k2 l2 l2', lines !! k2 = Some l2 ∧ lines' = <[k2 := l2']> lines ∧
    (k2 = k → validbit l2' = true ∧ tagbits l2' = tag_of c address) ∧
    (k2 ≠ k → (k2 < k)%nat →
       validbit l2' = true ∧ tagbits l2' ≠ tag_of c address))
    as (k2 & l2 & l2' & Hl2 & -> & Hsame & Hbefore).
  { pose proof Hacc as Hcases. apply access_lines_cases in Hcases.
    destruct Hcases as [(k2 & l2 & Hk2 & Hl2 & Hv2 & Ht2 & Hp2 & -> & Ho)|
                        [(k2 & l2 & Hk2 & Hl2 & Hv2 & Hp2 & -> & Ho)|
                         (k2 & l2 & Hl2 & Hp2 & Hk2 & Hlines' & Ho)]].
    - exists k2, l2, (hit_line l2 op (num + 1)). split_and!; try done.
      + intros ->. rewrite hit_line_validbit, hit_line_tagbits.
        rewrite Hl in Hl2. by injection Hl2 as <-.
      + intros _ Hlt. rewrite hit_line_validbit, hit_line_tagbits.
        destruct (Hp k2 Hlt) as (l2b & Hl2b & ? & ?).
        rewrite Hl2 in Hl2b. by injection Hl2b as <-.
    - exists k2, l2, (placed_line l2 (tag_of c address2) op (num + 1) true).
      split_and!; try done.
      + intros ->. congruence.
      + intros _ Hlt. destruct (Hp k2 Hlt) as (l2b & Hl2b & ? & _). congruence.
    - assert (r_eviction o = true) as Hev.
      { rewrite Ho. unfold placed_result.
        by destruct (is_store op), (dirtybit l2). }
      destruct (access_lines_evicts_oldest _ _ _ _ _ _ _ k l Hacc Hev Hl
        ltac:(lia) Hk) as (k3 & l3 & Hold & Hl3 & ->).
      rewrite take_ge in Hold by lia.
      destruct (full_slot_valid (cE c) lines (tag_of c address2) k l Hlen Hp2 Hl)
        as [_ Hne2].
      exists k3, l3, (placed_line l3 (tag_of c address2) op (num + 1) false).
      split_and!; try done.
      + intros ->. exfalso.
        destruct Hold as (lk & Hlk & Hmin).
        rewrite Hl in Hlk. injection Hlk as <-.
        destruct (lookup_lt_is_Some_2 lines (if decide (k = 0%nat) then 1 else 0)%nat)
          as [lj Hj]; [destruct (decide _); lia|].
        destruct (full_slot_valid (cE c) lines (tag_of c address2) _ lj Hlen Hp2 Hj)
          as [Hvj _].
        destruct (Hmin _ lj Hj) as [Hle _].
        pose proof (Hbelow _ _ _ _ Hset Hj Hvj) as Hb.
        destruct (Hdist _ _ _ _ _ _ _ _ Hset Hset Hl Hj Hv Hvj ltac:(lia))
          as [_ Hkj].
        destruct (decide (k = 0%nat)); lia.
      + intros _ _. rewrite placed_line_validbit, placed_line_tagbits.
        destruct (full_slot_valid (cE c) lines (tag_of c address2) k3 l3 Hlen Hp2 Hl3)
          as [-> _].
        split; [done|]. congruence. }
  destruct (resident_replace lines (tag_of c address) k l k2 l2 l2'
    (Z.to_nat (cE c)) Hl Hv Ht Hp Hk Hl2 Hsame Hbefore)
    as (k0 & l0 & Hk0 & Hl0 & Hv0 & Ht0 & Hp0).
  exists (<[k2 := l2']> lines), k0, l0. split_and!; try done. simpl.
  change (set_of (with_sets c _) address) with (set_of c address).
  rewrite Heq. apply list_lookup_insert_eq. by eapply lookup_lt_Some.
Qed.

Lemma access_lines_resident_since E lines tag op num result lines' result' :
  length lines = Z.to_nat E →
  access_lines E lines tag op num result = Ok (lines', result') →
  ∃ k l', (k < Z.to_nat E)%nat ∧ lines' !! k = Some l' ∧
    validbit l' = true ∧ tagbits l' = tag ∧ timestamp l' = num ∧
    ∀ j, (j < k)%nat → passed lines' tag j.
Proof.
  intros Hlen H. apply access_lines_cases in H.
  assert (∀ k l l', lines !! k = Some l → (k < Z.to_nat E)%nat →
    validbit l' = true → tagbits l' = tag → timestamp l' = num →
    (∀ j, (j < k)%nat → passed lines tag j) →
    ∃ k0 l0, (k0 < Z.to_nat E)%nat ∧ <[k := l']> lines !! k0 = Some l0 ∧
      validbit l0 = true ∧ tagbits l0 = tag ∧ timestamp l0 = num ∧
      ∀ j, (j < k0)%nat → passed (<[k := l']> lines) tag j) as Hres.
  { intros k l l' Hl Hk Hv Ht Hn Hp. exists k, l'. split_and!; try done.
    - apply list_lookup_insert_eq. by eapply lookup_lt_Some.
    - intros j Hj. apply passed_insert_ne; [lia|]. by apply Hp. }
  destruct H as [(k & l & Hk & Hl & Hv & Ht & Hp & -> & ->)|
                 [(k & l & Hk & Hl & Hv & Hp & -> & ->)|
                  (k & l & Hl & Hp & Hk & -> & ->)]].
  - apply (Hres k l); auto.
    + by rewrite hit_line_validbit.
    + by rewrite hit_line_tagbits.
    + apply hit_line_timestamp.
  - apply (Hres k l); auto.
    + by rewrite placed_line_validbit.
    + by rewrite placed_line_tagbits.
    + apply placed_line_timestamp.
  - assert (k < Z.to_nat E)%nat as Hk'.
    { apply lookup_lt_Some in Hl. lia. }
    apply (Hres k l); auto.
    + rewrite placed_line_validbit. simpl.
      by destruct (full_slot_valid E lines tag k l).
    + by rewrite placed_line_tagbits.
    + apply placed_line_timestamp.
    + intros j Hj. apply Hp. lia.
Qed.

Lemma isInCache_resident_since address c op num result c' result' :
  well_shaped c →
  isInCache address c op num result = Ok (c', result') →
  resident_since c' address num.
Proof.
  intros Hshape H.
  apply isInCache_Ok in H as (lines & lines' & Hset & Hacc & ->).
  destruct (access_lines_resident_since _ _ _ _ _ _ _ _ (Hshape _ _ Hset) Hacc)
    as (k & l' & Hk & Hl' & Hv & Ht & Hn & Hp).
  exists lines', k, l'. split_and!; try done. simpl.
  change (set_of (with_sets c _) address) with (set_of c address).
  apply list_lookup_insert_eq. by eapply lookup_lt_Some.
Qed.

(** X14: the block used last is not the one replaced.  In the replay of
    fewer than 2^31 records through a cache of [E >= 2] lines per set,
    whatever the record [x] that follows an access to a block, the block
    is still in the cache after it: a record [a'] for the address of [a],
    coming after [a] and [x], hits. *)
Theorem newest_block_survives_one_access hdr trace a x a' r :
  2 ≤ cE hdr →
  Z.of_nat (length trace) + 2 < 2 ^ 31 →
  t_address a' = t_address a →
  incrementStats (trace ++ [a; x]) zero_stats (makeCache hdr) = Ok r →
  ∃ c' o,
    isInCache (t_address a') (run_cache r) (t_instruction a') (run_linenum r)
      no_flags = Ok (c', o) ∧
    r_hit o = true ∧ r_miss o = false.
Proof.
  intros HE Hlen Haddr Hr. unfold incrementStats in Hr.
  rewrite replay_app in Hr.
  destruct (replay trace _ _ _) as [r0|] eqn:Hr0; [|done].
  destruct (makeCache_stamps hdr) as [Hbelow Hdist].
  pose proof (replay_cache_inv _ _ _ _ _ (makeCache_inv hdr) Hr0) as Hinv0.
  assert (cE (run_cache r0) = cE hdr) as HE0.
  { apply (replay_invariant (λ _ c0, cE c0 = cE hdr)) in Hr0; [done| |done].
    intros ? c0 ? ? c1 ? ? Hacc.
    apply isInCache_geometry in Hacc as (_ & ? & _). congruence. }
  apply replay_clock in Hr0 as (Hclock & Hbelow0 & Hdist0); [|lia|lia|done|done].
  simpl in Hr.
  destruct (isInCache _ _ _ _ _) as [[c1 o1]|] eqn:Hacc1; [|done].
  destruct (isInCache (t_address x) _ _ _ _) as [[c2 o2]|] eqn:Hacc2; [|done].
  injection Hr as <-. simpl.
  rewrite wrap_int_small in Hacc2 by lia.
  assert (resident c2 (t_address a)) as Hres.
  { eapply (isInCache_keeps_newest _ c1); [| | | | |exact Hacc2].
    - apply isInCache_geometry in Hacc1 as (_ & ? & _). lia.
    - by eapply isInCache_inv.
    - eapply isInCache_stamps; [exact Hacc1|lia|done].
    - by eapply isInCache_stamps_distinct.
    - eapply isInCache_resident_since; [|exact Hacc1]. by destruct Hinv0. }
  rewrite Haddr.
  destruct (resident_hit (t_address a) c2 (t_instruction a')
    (wrap_int (wrap_int (run_linenum r0 + 1) + 1)) no_flags Hres)
    as (c' & o & Hacc & Hhit & Hmiss).
  by exists c', o.
Qed.

(** ** Dirty bytes and stores *)

Lemma isInCache_dirty_flags address c op num c' o :
  isInCache address c op num no_flags = Ok (c', o) →
  (r_dirty o = true → is_store op = true) ∧
  (r_dirty_eviction o = true → r_eviction o = true).
Proof.
  intros H. apply isInCache_Ok in H as (lines & lines' & _ & Hacc & _).
  apply access_lines_cases in Hacc.
  destruct Hacc as [(k & l & Hk & Hl & Hv & Ht & Hp & -> & ->)|
                    [(k & l & Hk & Hl & Hv & Hp & -> & ->)|
                     (k & l & Hl & Hp & Hk & -> & ->)]].
  - unfold hit_result. by destruct (is_store op), (dirtybit l).
  - unfold placed_result. by destruct (is_store op).
  - unfold placed_result. by destruct (is_store op), (dirtybit l).
Qed.

Lemma replay_dirty_account trace stats c n r :
  0 ≤ cB c →
  replay trace stats c n = Ok r →
  0 ≤ dirty_evictions (run_stats r) - dirty_evictions stats
    ≤ cB c * (evictions (run_stats r) - evictions stats) ∧
  0 ≤ dirty_bytes (run_stats r) + dirty_evictions (run_stats r)
        - (dirty_bytes stats + dirty_evictions stats)
    ≤ cB c * count_stores trace.
Proof.
  intros HB. revert stats c n HB.
  induction trace as [|a trace IH]; intros stats c n HB; simpl.
  - intros [= <-]. simpl. lia.
  - destruct (isInCache _ _ _ _ _) as [[c' o]|] eqn:Hacc; [|done].
    pose proof (isInCache_geometry _ _ _ _ _ _ _ Hacc) as (_ & _ & HB' & _).
    destruct (isInCache_dirty_flags _ _ _ _ _ _ Hacc) as [Hst Hde].
    intros Hr. apply IH in Hr; [|lia].
    destruct (count_outcome_fields (cB c') o stats)
      as (_ & _ & He & Hdb & Hdev).
    rewrite He, Hdb, Hdev, HB' in Hr. clear He Hdb Hdev.
    assert (0 ≤ count_stores trace) as Hcs.
    { clear. induction trace as [|x t IHt]; simpl; [lia|].
      unfold b2z. destruct (is_store _); lia. }
    destruct (r_dirty o), (r_dirty_eviction o), (r_eviction o),
      (is_store (t_instruction a));
      try (specialize (Hst eq_refl)); try (specialize (Hde eq_refl));
      try discriminate; simpl in *; nia.
Qed.

(** X15: with [B >= 0], at the end of a replay [dirty_evictions] is at
    most [B] times [evictions], and the dirty bytes still in the cache
    plus those evicted are at most [B] times the number of ['S'] records:
    a line becomes dirty by a store only, and a store counts at most one
    block. *)
Theorem dirty_bytes_come_from_stores hdr trace r :
  0 ≤ cB hdr →
  incrementStats trace zero_stats (makeCache hdr) = Ok r →
  0 ≤ dirty_evictions (run_stats r) ≤ cB hdr * evictions (run_stats r) ∧
  dirty_bytes (run_stats r) + dirty_evictions (run_stats r)
    ≤ cB hdr * count_stores trace.
Proof.
  intros HB Hr. unfold incrementStats in Hr.
  apply replay_dirty_account in Hr; [|done]. simpl in Hr. lia.
Qed.

(** ** When a run stays within bounds *)

Lemma isInCache_no_lines address c op num result :
  cE c ≤ 0 → well_shaped c →
  ∃ f, isInCache address c op num result = Crash f.
Proof.
  intros HE Hshape. unfold isInCache.
  destruct (sets c !! _) as [lines|] eqn:Hset; [|eauto].
  pose proof (Hshape _ _ Hset) as Hlen.
  rewrite Z2Nat.nonpos in Hlen by done.
  destruct lines; [|done].
  unfold access_lines. rewrite Z2Nat.nonpos by done. simpl. eauto.
Qed.

(** Where every [malloc] returned a block: with [0 <= s <= 30], [b >= 0]
    and [s + b <= 64] the run over a trace that is not empty stays within
    the bounds of its arrays exactly when [E >= 1]. *)
Lemma main_in_bounds_iff_lines s E b a trace :
  0 ≤ s ≤ 30 → 0 ≤ b → s + b ≤ 64 →
  (1 ≤ E ↔ ∃ r, main s E b (a :: trace) = Ok r).
Proof.
  intros Hs Hb Hsb. unfold main, incrementStats. split.
  - intros HE. apply replay_total, makeCache_wf.
    unfold valid_geometry, geometry. simpl.
    rewrite shl_int_defined by lia. lia.
  - intros [r Hr]. destruct (decide (1 ≤ E)) as [|HE]; [done|exfalso].
    simpl in Hr.
    destruct (isInCache_no_lines (t_address a) (makeCache (geometry s E b))
      (t_instruction a) 0 no_flags) as [f Hf].
    + simpl. lia.
    + by destruct (makeCache_inv (geometry s E b)).
    + by rewrite Hf in Hr.
Qed.

(** ** The run and the allocator *)

Lemma make_sets_Ok gives E n i ss :
  make_sets gives E n i = Ok ss →
  ss = replicate n (replicate (Z.to_nat E) empty_line) ∧
  (n ≠ 0%nat → gives SetArray = true) ∧
  (1 ≤ E → ∀ j, (i ≤ j < i + n)%nat → gives (LineArray j) = true).
Proof.
  revert i ss. induction n as [|n IH]; intros i ss; simpl.
  - intros [= <-]. split_and!; [done|done|]. intros _ j Hj. lia.
  - destruct (gives SetArray) eqn:Hsets; simpl; [|done].
    destruct (1 <=? E) eqn:HE; simpl.
    + destruct (gives (LineArray i)) eqn:Hlines; simpl; [|done].
      destruct (make_sets gives E n (Datatypes.S i)) as [ss'|] eqn:Hrest;
        [|done].
      intros [= <-]. destruct (IH _ _ Hrest) as (-> & _ & Hall).
      split_and!; [done|done|]. intros HE1 j Hj.
      destruct (decide (j = i)) as [->|]; [done|]. apply Hall; lia.
    + destruct (make_sets gives E n (Datatypes.S i)) as [ss'|] eqn:Hrest;
        [|done].
      intros [= <-]. destruct (IH _ _ Hrest) as (-> & _ & _).
      split_and!; [done|done|]. intros HE1. apply Z.leb_gt in HE. lia.
Qed.

Lemma make_sets_Crash gives E n i f :
  make_sets gives E n i = Crash f →
  ∃ al, f = NullPointer al ∧ gives al = false.
Proof.
  revert i. induction n as [|n IH]; intros i; simpl; [done|].
  destruct (gives SetArray) eqn:Hsets; simpl; [|intros [= <-]; eauto].
  destruct (1 <=? E); simpl.
  - destruct (gives (LineArray i)) eqn:Hlines; simpl; [|intros [= <-]; eauto].
    destruct (make_sets gives E n (Datatypes.S i)) eqn:Hrest; [done|].
    intros [= <-]. eauto.
  - destruct (make_sets gives E n (Datatypes.S i)) eqn:Hrest; [done|].
    intros [= <-]. eauto.
Qed.

Lemma make_sets_given gives E n i :
  gives SetArray = true →
  (∀ j, (i ≤ j < i + n)%nat → gives (LineArray j) = true) →
  make_sets gives E n i = Ok (replicate n (replicate (Z.to_nat E) empty_line)).
Proof.
  intros Hsets. revert i. induction n as [|n IH]; intros i Hall; simpl; [done|].
  rewrite Hsets, (Hall i) by lia. simpl. rewrite andb_false_r.
  rewrite IH; [done|]. intros j Hj. apply Hall. lia.
Qed.

(** What [makeCache] returns with the allocator is the cache of
    [makeCache]; it stops at a null pointer and nowhere else. *)
Lemma makeCache_alloc_Ok gives c c' :
  makeCache_alloc gives c = Ok c' → c' = makeCache c.
Proof.
  unfold makeCache_alloc.
  destruct (make_sets _ _ _ _) as [ss|] eqn:Hss; [|done].
  intros [= <-]. by apply make_sets_Ok in Hss as (-> & _).
Qed.

(** X16: with [0 <= s <= 30], [b >= 0] and [s + b <= 64], the run over a
    trace that is not empty completes exactly when [E >= 1] and [malloc]
    returned each of its blocks: the cache structure, the array of sets,
    the lines of every one of the [2^s] sets, the statistics and the
    outcome array.  It then ends as [main] does; and with [E >= 1] it can
    only stop at a null pointer that [malloc] returned, whatever the
    shifts that C leaves undefined yield. *)
Theorem run_completes_iff_lines_and_memory gives s E b a trace :
  0 ≤ s ≤ 30 → 0 ≤ b → s + b ≤ 64 →
  ((∃ r, main_alloc gives s E b (a :: trace) = Ok r) ↔
     1 ≤ E ∧ gives CacheStruct = true ∧ gives SetArray = true ∧
     (∀ i, (i < Z.to_nat (2 ^ s))%nat → gives (LineArray i) = true) ∧
     gives StatsStruct = true ∧ gives OutcomeArray = true) ∧
  (∀ r, main_alloc gives s E b (a :: trace) = Ok r →
     main s E b (a :: trace) = Ok r) ∧
  (1 ≤ E → ∀ f, main_alloc gives s E b (a :: trace) = Crash f →
     ∃ al, f = NullPointer al ∧ gives al = false).
Proof.
  intros Hs Hb Hsb.
  assert (shl_int 1 s = 2 ^ s) as HS by (apply shl_int_defined; lia).
  assert (Z.to_nat (2 ^ s) ≠ 0%nat) as Hpos.
  { assert (0 < 2 ^ s) by (apply Z.pow_pos_nonneg; lia). lia. }
  assert (∀ r, main_alloc gives s E b (a :: trace) = Ok r →
    main s E b (a :: trace) = Ok r ∧ gives CacheStruct = true ∧
    gives SetArray = true ∧ gives StatsStruct = true ∧
    gives OutcomeArray = true ∧
    (1 ≤ E → ∀ i, (i < Z.to_nat (2 ^ s))%nat → gives (LineArray i) = true))
    as Hok.
  { intros r. unfold main_alloc, makeCache_alloc, incrementStats_alloc, main.
    destruct (gives CacheStruct); simpl; [|done].
    destruct (make_sets _ _ _ _) as [ss|] eqn:Hss; [|done].
    apply make_sets_Ok in Hss as (-> & Hsets & Hlines).
    destruct (gives StatsStruct); simpl; [|done].
    destruct (gives OutcomeArray); simpl; [|done].
    intros Hr. simpl in Hsets, Hlines. rewrite HS in Hsets, Hlines.
    split_and!; [done|done|by apply Hsets|done|done|].
    intros HE i Hi. apply Hlines; [done|lia]. }
  split_and!.
  - split.
    + intros [r Hr]. destruct (Hok r Hr) as (Hm & ? & ? & ? & ? & Hlines).
      assert (1 ≤ E) as HE.
      { apply (main_in_bounds_iff_lines s E b a trace); eauto. }
      split_and!; auto.
    + intros (HE & Hc & Hsets & Hlines & Hst & Ho).
      destruct (proj1 (main_in_bounds_iff_lines s E b a trace Hs Hb Hsb) HE)
        as [r Hr].
      exists r. unfold main_alloc, makeCache_alloc, incrementStats_alloc.
      rewrite Hc, make_sets_given, Hst, Ho; [done|done|].
      intros j Hj. simpl in Hj. rewrite HS in Hj. apply Hlines. lia.
  - intros r Hr. by destruct (Hok r Hr).
  - intros HE f.
    unfold main_alloc, makeCache_alloc, incrementStats_alloc.
    destruct (gives CacheStruct) eqn:Hc; simpl; [|intros [= <-]; eauto].
    destruct (make_sets _ _ _ _) as [ss|] eqn:Hss;
      [|intros [= <-]; by eapply make_sets_Crash].
    apply make_sets_Ok in Hss as (-> & _).
    destruct (gives StatsStruct) eqn:Hst; simpl; [|intros [= <-]; eauto].
    destruct (gives OutcomeArray) eqn:Ho; simpl; [|intros [= <-]; eauto].
    intros Hf.
    destruct (proj1 (main_in_bounds_iff_lines s E b a trace Hs Hb Hsb) HE)
      as [r Hr].
    change (main s E b (a :: trace) = Crash f) in Hf. congruence.
Qed.

(** ** The options of [main] *)

Lemma read_options_fields opts c :
  cs (read_options opts c) = default (cs c) (last_value "s" opts) ∧
  cS (read_options opts c) =
    default (cS c) (shl_int 1 <$> last_value "s" opts) ∧
  cE (read_options opts c) = default (cE c) (last_value "E" opts) ∧
  cb (read_options opts c) = default (cb c) (last_value "b" opts) ∧
  cB (read_options opts c) =
    default (cB c) (shl_int 1 <$> last_value "b" opts) ∧
  sets (read_options opts c) = sets c.
Proof.
  revert c. induction opts as [|o opts IH]; intros c; simpl; [done|].
  destruct (IH (read_option o c)) as (-> & -> & -> & -> & -> & ->).
  unfold read_option.
  destruct (last_value "s" opts), (last_value "E" opts), (last_value "b" opts);
    simpl;
    destruct (o_letter o) as [[] [] [] [] [] [] [] []]; simpl; done.
Qed.

(** X17: the options may come in any order, be repeated and be mixed with
    others: when [-s], [-E] and [-b] each occur, the cache that [makeCache]
    builds after the loop is the one of the last value of each, with
    [S = 1 << s] and [B = 1 << b], and nothing of what the allocated
    structure held before is left in it.  A field whose option does not
    occur keeps what the structure held. *)
Theorem last_options_decide opts c0 s E b :
  last_value "s" opts = Some s →
  last_value "E" opts = Some E →
  last_value "b" opts = Some b →
  makeCache (read_options opts c0) = makeCache (geometry s E b) ∧
  ∀ opts', last_value "E" opts' = None →
    cE (read_options opts' c0) = cE c0.
Proof.
  intros Hs HE Hb. split.
  - destruct (read_options_fields opts c0) as (H1 & H2 & H3 & H4 & H5 & _).
    rewrite Hs, HE, Hb in *. simpl in *.
    unfold makeCache, with_sets, geometry. simpl. by rewrite H1, H2, H3, H4, H5.
  - intros opts' Hno.
    destruct (read_options_fields opts' c0) as (_ & _ & H3 & _).
    by rewrite Hno in H3.
Qed.

(** ** Allocation and release *)

Lemma load_app_l p (h1 h2 : Heap) b :
  load p h1 = Some b → load p (h1 ++ h2) = Some b.
Proof.
  unfold load. destruct (h1 !! p) as [[b0|]|] eqn:Hp; try done.
  intros [= ->]. by rewrite (lookup_app_l_Some _ _ _ _ Hp).
Qed.

Lemma load_lt p (heap : Heap) b : load p heap = Some b → (p < length heap)%nat.
Proof.
  unfold load. destruct (heap !! p) as [[b0|]|] eqn:Hp; try done.
  intros _. by eapply lookup_lt_Some.
Qed.

Lemma load_middle (h1 h2 : Heap) b :
  load (length h1) (h1 ++ Some b :: h2) = Some b.
Proof. unfold load. by rewrite list_lookup_middle. Qed.

Lemma insert_middle (h1 h2 : Heap) x y :
  <[length h1 := y]> (h1 ++ x :: h2) = h1 ++ y :: h2.
Proof.
  rewrite <- (Nat.add_0_r (length h1)). by rewrite insert_app_r.
Qed.



Lemma free_lines_eq n i before cache vS vE vB vs vb (rest : list LineSet) :
  length rest = n →
  load cache before =
    Some (CacheBlock vS vE vB vs vb (Some (length before))) →
  free_lines n i cache
    (before ++
     Some (SetsBlock (Some <$> seq (Datatypes.S (length before)) (i + n))) ::
     replicate i None ++ (Some ∘ LinesBlock <$> rest)) =
  Some (before ++
     Some (SetsBlock (Some <$> seq (Datatypes.S (length before)) (i + n))) ::
     replicate (i + n) None).
Proof.
  intros Hlen Hc. revert i rest Hlen.
  induction n as [|n IH]; intros i rest Hlen; simpl.
  - destruct rest; [|done]. simpl. by rewrite Nat.add_0_r, app_nil_r.
  - destruct rest as [|l rest]; [done|]. simpl in Hlen.
    rewrite (load_app_l _ _ _ _ Hc), load_middle.
    rewrite list_lookup_fmap, lookup_seq_lt by lia. simpl.
    change (list_fmap LineSet (option Block) (Some ∘ LinesBlock) rest)
      with (Some ∘ LinesBlock <$> rest).
    set (sb := Some (SetsBlock
      (Some <$> seq (Datatypes.S (length before)) (i + Datatypes.S n)))).
    assert (before ++ sb :: replicate i None ++
              Some (LinesBlock l) :: (Some ∘ LinesBlock <$> rest) =
            (before ++ sb :: replicate i None) ++
              Some (LinesBlock l) :: (Some ∘ LinesBlock <$> rest)) as ->.
    { by rewrite <- app_assoc. }
    assert (Datatypes.S (length before + i) =
            length (before ++ sb :: replicate i None)) as ->.
    { rewrite length_app. simpl. rewrite length_replicate. lia. }
    unfold free. rewrite load_middle, insert_middle.
    assert ((before ++ sb :: replicate i None) ++
              None :: (Some ∘ LinesBlock <$> rest) =
            before ++ sb :: replicate (Datatypes.S i) None ++
              (Some ∘ LinesBlock <$> rest)) as ->.
    { by rewrite replicate_S_end, <- !app_assoc. }
    subst sb. rewrite <- Nat.add_succ_comm.
    apply IH. lia.
Qed.

Lemma freeCache_eq cache (before : Heap) vS vE vB vs vb (ss : list LineSet) :
  load cache before =
    Some (CacheBlock vS vE vB vs vb (Some (length before))) →
  length ss = Z.to_nat vS →
  freeCache cache (laid_out before ss) =
    Some (<[cache := None]> before ++ replicate (Datatypes.S (length ss)) None).
Proof.
  intros Hc Hlen. pose proof (load_lt _ _ _ Hc) as Hlt.
  unfold freeCache, laid_out. rewrite (load_app_l _ _ _ _ Hc).
  pose proof (free_lines_eq (length ss) 0 before cache vS vE vB vs vb ss
    eq_refl Hc) as Hloop.
  simpl in Hloop. rewrite <- Hlen, Hloop.
  rewrite (load_app_l _ _ _ _ Hc).
  unfold free. rewrite load_middle, insert_middle.
  rewrite (load_app_l _ _ _ _ Hc).
  by rewrite insert_app_l.
Qed.


(** X19: [freeCache] frees what [makeCache] allocated and the cache
    structure, each cell once, reading no cell after freeing it and
    touching no other cell, whatever the accesses have written in the
    lines; called again on the freed structure it has nothing valid to
    read. *)
Theorem freeCache_releases_the_layout cache (heap : Heap) vS vE vB vs vb old
    (ss : list LineSet) :
  load cache heap = Some (CacheBlock vS vE vB vs vb old) →
  length ss = Z.to_nat vS →
  freeCache cache
    (laid_out
       (<[cache := Some (CacheBlock vS vE vB vs vb (Some (length heap)))]> heap)
       ss) =
    Some (<[cache := None]> heap ++ replicate (Datatypes.S (length ss)) None) ∧
  freeCache cache
    (<[cache := None]> heap ++ replicate (Datatypes.S (length ss)) None) = None.
Proof.
  intros Hc Hlen. pose proof (load_lt _ _ _ Hc) as Hlt. split.
  - rewrite (freeCache_eq cache _ vS vE vB vs vb ss); [|by unfold load;
      rewrite length_insert, list_lookup_insert_eq|done].
    by rewrite list_insert_insert_eq.
  - unfold freeCache, load.
    rewrite lookup_app_l by (by rewrite length_insert).
    by rewrite list_lookup_insert_eq.
Qed.

End Csim.

(** * The theorems at concrete inputs *)

Lemma dirty_bytes_counts_dirty_lines_witness :
  0 ≤ cB two_way ∧
  ∃ r, incrementStats masked_shift [store0 1; mkAccess "S" 8 1] zero_stats
         (makeCache two_way) = Ok r ∧
       dirty_bytes (run_stats r) = cB two_way * dirty_total (sets (run_cache r)).
Proof.
  assert (0 ≤ cB two_way) as HB by (simpl; lia).
  split; [exact HB|].
  destruct (dirty_bytes_counts_dirty_lines masked_shift two_way
    [store0 1; mkAccess "S" 8 1] [] HB) as [Hinv Htotal].
  destruct Htotal as [r Hr].
  { unfold valid_geometry. simpl. lia. }
  exists r. split; [exact Hr|]. apply (Hinv r Hr).
Defined.

Lemma two_way_stored_reachable : reachable masked_shift two_way_stored.
Proof.
  apply (reachable_access masked_shift (makeCache two_way) 0 "S" 0 no_flags
    two_way_stored (mkResult false true false true false)).
  - apply reachable_make.
  - reflexivity.
Qed.

Lemma two_way_reused_reachable : reachable masked_shift two_way_reused.
Proof.
  apply (reachable_access masked_shift
    (mkCache 1 2 8 0 3 [[mkLine true 1 false 1; mkLine true 2 false 2]])
    8 "L" 3 no_flags two_way_reused (mkResult true false false false false));
    [|reflexivity].
  apply (reachable_access masked_shift
    (mkCache 1 2 8 0 3 [[mkLine true 1 false 1; empty_line]])
    16 "L" 2 no_flags _ (mkResult false true false false false));
    [|reflexivity].
  apply (reachable_access masked_shift
    (mkCache 1 2 8 0 3 [[mkLine true 1 false 0; empty_line]])
    8 "L" 1 no_flags _ (mkResult true false false false false));
    [|reflexivity].
  apply (reachable_access masked_shift (makeCache two_way) 8 "L" 0 no_flags
    _ (mkResult false true false false false)); [|reflexivity].
  apply reachable_make.
Qed.

Lemma reachable_distinct_tags_witness :
  reachable masked_shift two_way_reused ∧
  (∀ set lines, sets two_way_reused !! set = Some lines → distinct_tags lines) ∧
  (∀ address op num result c' result',
     isInCache masked_shift address two_way_reused op num result =
       Ok (c', result') →
     ∀ set lines, sets c' !! set = Some lines → distinct_tags lines).
Proof.
  split; [apply two_way_reused_reachable|].
  apply (reachable_distinct_tags masked_shift two_way_reused
    two_way_reused_reachable).
Defined.

Lemma reachable_valid_prefix_witness :
  reachable masked_shift two_way_stored ∧
  ∀ set lines i j li, sets two_way_stored !! set = Some lines →
    lines !! i = Some li → validbit li = true → (j < i)%nat →
    ∃ lj, lines !! j = Some lj ∧ validbit lj = true.
Proof.
  split; [apply two_way_stored_reachable|].
  apply (reachable_valid_prefix masked_shift two_way_stored
    two_way_stored_reachable).
Defined.

Lemma replay_ignores_sizes_witness :
  same_accesses [store0 1; mkAccess "L" 8 2] [store0 4; mkAccess "L" 8 8] ∧
  incrementStats masked_shift [store0 1; mkAccess "L" 8 2] zero_stats
    (makeCache two_way) =
  incrementStats masked_shift [store0 4; mkAccess "L" 8 8] zero_stats
    (makeCache two_way).
Proof.
  assert (same_accesses [store0 1; mkAccess "L" 8 2]
                        [store0 4; mkAccess "L" 8 8]) as H by reflexivity.
  split; [exact H|].
  apply (replay_ignores_sizes masked_shift two_way _ _ H).
Defined.

Lemma repeated_access_hits_witness :
  other_sets masked_shift sixteen_sets 0 [mkAccess "L" 8 1] ∧
  ∃ r,
    incrementStats masked_shift ([] ++ store0 1 :: [mkAccess "L" 8 1])
      zero_stats (makeCache sixteen_sets) = Ok r ∧
    ∃ c' o,
      isInCache masked_shift 0 (run_cache r) "S" (run_linenum r) no_flags =
        Ok (c', o) ∧
      r_hit o = true ∧ r_miss o = false.
Proof.
  assert (other_sets masked_shift sixteen_sets 0 [mkAccess "L" 8 1]) as Hmid.
  { apply Forall_cons. split; [vm_compute; discriminate | apply Forall_nil_2]. }
  assert (∃ r, incrementStats masked_shift ([] ++ store0 1 :: [mkAccess "L" 8 1])
    zero_stats (makeCache sixteen_sets) = Ok r) as [r Hr].
  { eexists. vm_compute. reflexivity. }
  split; [exact Hmid|]. exists r. split; [exact Hr|].
  destruct (repeated_access_hits masked_shift sixteen_sets [] (store0 1)
    [mkAccess "L" 8 1] (store0 4) [] r eq_refl eq_refl Hmid Hr)
    as (c' & o & Hacc & Hhit & Hmiss & _).
  exists c', o. split; [exact Hacc|]. split; [exact Hhit | exact Hmiss].
Defined.

Lemma two_way_reused_miss : full_miss masked_shift two_way_reused 24.
Proof.
  split; [simpl; lia|].
  exists [mkLine true 1 false 3; mkLine true 2 false 2].
  split_and!; [reflexivity..|].
  intros [|[|i]] l; simpl; intros [= <-]; by split.
Qed.

Lemma full_set_miss_replaces_oldest_witness :
  Z.of_nat (length [load_at 8; load_at 8; load_at 16; load_at 8]) < 2 ^ 31 ∧
  incrementStats masked_shift [load_at 8; load_at 8; load_at 16; load_at 8]
    zero_stats (makeCache two_way) =
    Ok (mkRun (mkStats 2 2 0 0 0) two_way_reused 4) ∧
  full_miss masked_shift two_way_reused 24 ∧
  evicts_oldest masked_shift two_way_reused 24 "L" 4 ∧
  isInCache masked_shift 24 two_way_reused "L" 4 no_flags =
    Ok (mkCache 1 2 8 0 3 [[mkLine true 1 false 3; mkLine true 3 false 4]],
        mkResult false true true false false).
Proof.
  assert (Z.of_nat (length [load_at 8; load_at 8; load_at 16; load_at 8])
    < 2 ^ 31) as Hlen by (simpl; lia).
  assert (incrementStats masked_shift
    [load_at 8; load_at 8; load_at 16; load_at 8] zero_stats
    (makeCache two_way) = Ok (mkRun (mkStats 2 2 0 0 0) two_way_reused 4))
    as Hr by reflexivity.
  split_and!; [exact Hlen | exact Hr | apply two_way_reused_miss | |
    reflexivity].
  apply (proj1 (full_set_miss_replaces_oldest masked_shift two_way
    [load_at 8; load_at 8; load_at 16; load_at 8] (load_at 24) _ Hlen Hr
    two_way_reused_miss)).
Defined.

Lemma address_decomposition_witness :
  0 ≤ cs sixteen_sets ∧ 0 ≤ cb sixteen_sets ∧
  cs sixteen_sets + cb sixteen_sets ≤ 64 ∧
  tag_of masked_shift sixteen_sets 4660 = Z.shiftr 4660 7 ∧
  set_of masked_shift sixteen_sets 4660 = Z.shiftr 4660 3 mod 2 ^ 4.
Proof.
  assert (0 ≤ cs sixteen_sets) as Hs by (simpl; lia).
  assert (0 ≤ cb sixteen_sets) as Hb by (simpl; lia).
  assert (cs sixteen_sets + cb sixteen_sets ≤ 64) as Hsb by (simpl; lia).
  split_and!; [exact Hs | exact Hb | exact Hsb | |].
  - apply (address_decomposition masked_shift sixteen_sets 4660 Hs Hb Hsb).
    simpl. lia.
  - apply (address_decomposition masked_shift sixteen_sets 4660 Hs Hb Hsb).
Defined.

(** C2 as stated fails at [s + b = 64]: the tag comes from a shift
    by the whole width of the address, and with the count taken modulo 64
    it is the address itself, not [address >> 64]. *)
Lemma full_width_tag_is_the_address :
  0 ≤ cs full_width ∧ 0 ≤ cb full_width ∧
  cs full_width + cb full_width ≤ 64 ∧
  tag_of masked_shift full_width (2 ^ 60) = 2 ^ 60 ∧
  Z.shiftr (2 ^ 60) (cs full_width + cb full_width) = 0 ∧
  ¬ decomposes masked_shift full_width (2 ^ 60).
Proof.
  split_and!; try (simpl; lia); try reflexivity.
  intros (Htag & _). vm_compute in Htag. discriminate Htag.
Qed.

(** C5 as stated fails: with [E = 0] the run on the empty trace ends
    with its statistics, and the run on a one-record trace calls
    [isInCache], which writes slot 0 of a set that has no lines. *)
Lemma zero_lines_cache_is_used :
  main masked_shift 0 0 0 [] =
    Ok (mkRun zero_stats (mkCache 1 0 1 0 0 [[]]) 0) ∧
  isInCache masked_shift 0 (makeCache (geometry masked_shift 0 0 0)) "L" 0
    no_flags = Crash (LineOutOfBounds 0) ∧
  main masked_shift 0 0 0 [mkAccess "L" 0 1] = Crash (LineOutOfBounds 0).
Proof.
  split_and!; reflexivity.
Qed.

Lemma two_way_replayed_miss : full_miss masked_shift two_way_replayed 0.
Proof.
  split; [simpl; lia|].
  exists [mkLine true 1 false 0; mkLine true 2 true 1].
  split_and!; [reflexivity..|].
  intros [|[|i]] l; simpl; intros [= <-]; by split.
Qed.

Lemma replay_miss_replaces_oldest_witness :
  incrementStats masked_shift [mkAccess "L" 8 1; mkAccess "S" 16 1] zero_stats
    (makeCache two_way) = Ok (mkRun (mkStats 0 2 0 8 0) two_way_replayed 2) ∧
  evicts_oldest masked_shift two_way_replayed 0 "L" 2.
Proof.
  assert (incrementStats masked_shift [mkAccess "L" 8 1; mkAccess "S" 16 1]
    zero_stats (makeCache two_way) =
      Ok (mkRun (mkStats 0 2 0 8 0) two_way_replayed 2)) as Hr by reflexivity.
  split; [exact Hr|].
  apply (replay_miss_replaces_oldest masked_shift two_way
    [mkAccess "L" 8 1; mkAccess "S" 16 1] (mkAccess "L" 0 1) _
    ltac:(simpl; lia) Hr two_way_replayed_miss).
Defined.

(** * The further properties at concrete inputs *)

Lemma access_changes_one_slot_witness :
  isInCache masked_shift 0 (makeCache two_way) "S" 0 no_flags =
    Ok (two_way_stored, mkResult false true false true false) ∧
  length (sets two_way_stored) = length (sets (makeCache two_way)).
Proof.
  assert (isInCache masked_shift 0 (makeCache two_way) "S" 0 no_flags =
    Ok (two_way_stored, mkResult false true false true false)) as H
    by reflexivity.
  split; [exact H|].
  apply (access_changes_one_slot masked_shift _ _ _ _ _ _ _ H).
Defined.

Lemma outcome_from_target_set_witness :
  reachable masked_shift two_way_stored ∧
  isInCache masked_shift 0 two_way_stored "L" 1 no_flags =
    Ok (mkCache 1 2 8 0 3 [[mkLine true 0 true 1; empty_line]],
        mkResult true false false false false) ∧
  present masked_shift two_way_stored 0.
Proof.
  assert (isInCache masked_shift 0 two_way_stored "L" 1 no_flags =
    Ok (mkCache 1 2 8 0 3 [[mkLine true 0 true 1; empty_line]],
        mkResult true false false false false)) as H by reflexivity.
  split; [apply two_way_stored_reachable|]. split; [exact H|].
  apply (outcome_from_target_set masked_shift _ _ _ _ _ _
    two_way_stored_reachable H). reflexivity.
Defined.

Lemma misses_minus_evictions_counts_valid_lines_witness :
  ∃ r, incrementStats masked_shift [store0 1; mkAccess "L" 8 1; mkAccess "L" 16 1]
         zero_stats (makeCache two_way) = Ok r ∧
       misses (run_stats r) - evictions (run_stats r) =
         valid_total (sets (run_cache r)).
Proof.
  assert (∃ r, incrementStats masked_shift
    [store0 1; mkAccess "L" 8 1; mkAccess "L" 16 1] zero_stats
    (makeCache two_way) = Ok r) as [r Hr].
  { eexists. vm_compute. reflexivity. }
  exists r. split; [exact Hr|].
  apply (misses_minus_evictions_counts_valid_lines masked_shift _ _ _ Hr).
Defined.

Lemma reachable_invalid_lines_untouched_witness :
  reachable masked_shift two_way_stored ∧ pristine two_way_stored.
Proof.
  split; [apply two_way_stored_reachable|].
  apply (reachable_invalid_lines_untouched masked_shift two_way_stored
    two_way_stored_reachable).
Defined.

Lemma few_tags_no_eviction_witness :
  (∀ set, (length (remove_dups (tags_to masked_shift two_way set
      [store0 1; mkAccess "L" 8 1; store0 2])) ≤ Z.to_nat (cE two_way))%nat) ∧
  ∃ r, incrementStats masked_shift [store0 1; mkAccess "L" 8 1; store0 2]
         zero_stats (makeCache two_way) = Ok r ∧
       evictions (run_stats r) = 0.
Proof.
  assert (∀ set, (length (remove_dups (tags_to masked_shift two_way set
      [store0 1; mkAccess "L" 8 1; store0 2])) ≤ Z.to_nat (cE two_way))%nat)
    as Hfew.
  { intros [|set]; vm_compute; lia. }
  assert (∃ r, incrementStats masked_shift
    [store0 1; mkAccess "L" 8 1; store0 2] zero_stats (makeCache two_way) = Ok r)
    as [r Hr].
  { eexists. vm_compute. reflexivity. }
  split; [exact Hfew|]. exists r. split; [exact Hr|].
  apply (few_tags_no_eviction masked_shift _ _ _ Hfew Hr).
Defined.

Lemma first_access_to_a_block_misses_witness :
  incrementStats masked_shift [store0 1] zero_stats (makeCache two_way) =
    Ok (mkRun (mkStats 0 1 0 8 0) two_way_stored 1) ∧
  (tag_of masked_shift two_way 8 ∉
     tags_to masked_shift two_way (Z.to_nat (set_of masked_shift two_way 8))
       [store0 1]) ∧
  isInCache masked_shift 8 two_way_stored "L" 1 no_flags =
    Ok (mkCache 1 2 8 0 3 [[mkLine true 0 true 0; mkLine true 1 false 1]],
        mkResult false true false false false) ∧
  r_miss (mkResult false true false false false) = true.
Proof.
  assert (incrementStats masked_shift [store0 1] zero_stats (makeCache two_way) =
    Ok (mkRun (mkStats 0 1 0 8 0) two_way_stored 1)) as Hr by reflexivity.
  assert (tag_of masked_shift two_way 8 ∉
    tags_to masked_shift two_way (Z.to_nat (set_of masked_shift two_way 8))
      [store0 1]) as Hnew.
  { change (1 ∉ [0]). intros Hin.
    apply list_elem_of_singleton in Hin. discriminate Hin. }
  assert (isInCache masked_shift 8 two_way_stored "L" 1 no_flags =
    Ok (mkCache 1 2 8 0 3 [[mkLine true 0 true 0; mkLine true 1 false 1]],
        mkResult false true false false false)) as Hacc by reflexivity.
  split_and!; [exact Hr | exact Hnew | exact Hacc |].
  apply (first_access_to_a_block_misses masked_shift two_way [store0 1]
    (mkAccess "L" 8 1) _ _ _ Hr Hnew Hacc).
Defined.

Lemma loads_leave_the_cache_clean_witness :
  no_store [mkAccess "L" 0 1; mkAccess "L" 8 1; mkAccess "L" 16 1] ∧
  ∃ r, incrementStats masked_shift
         [mkAccess "L" 0 1; mkAccess "L" 8 1; mkAccess "L" 16 1] zero_stats
         (makeCache two_way) = Ok r ∧
       dirty_bytes (run_stats r) = 0 ∧ dirty_evictions (run_stats r) = 0.
Proof.
  assert (no_store [mkAccess "L" 0 1; mkAccess "L" 8 1; mkAccess "L" 16 1])
    as Hloads.
  { repeat (apply Forall_cons; split; [reflexivity|]). apply Forall_nil_2. }
  assert (∃ r, incrementStats masked_shift
    [mkAccess "L" 0 1; mkAccess "L" 8 1; mkAccess "L" 16 1] zero_stats
    (makeCache two_way) = Ok r) as [r Hr].
  { eexists. vm_compute. reflexivity. }
  split; [exact Hloads|]. exists r. split; [exact Hr|].
  apply (loads_leave_the_cache_clean masked_shift _ _ _ Hloads Hr).
Defined.

Lemma traffic_ignores_operations_witness :
  t_address <$> [store0 1; mkAccess "L" 8 1] =
    t_address <$> [mkAccess "L" 0 4; mkAccess "S" 8 2] ∧
  same_traffic
    (incrementStats masked_shift [store0 1; mkAccess "L" 8 1] zero_stats
       (makeCache two_way))
    (incrementStats masked_shift [mkAccess "L" 0 4; mkAccess "S" 8 2] zero_stats
       (makeCache two_way)).
Proof.
  assert (t_address <$> [store0 1; mkAccess "L" 8 1] =
    t_address <$> [mkAccess "L" 0 4; mkAccess "S" 8 2]) as H by reflexivity.
  split; [exact H|].
  apply (traffic_ignores_operations masked_shift two_way _ _ H).
Defined.

Lemma tag_and_set_are_the_block_witness :
  0 ≤ cs sixteen_sets ∧ 0 ≤ cb sixteen_sets ∧
  cs sixteen_sets + cb sixteen_sets < 64 ∧
  Z.shiftr 4660 (cb sixteen_sets) =
    tag_of masked_shift sixteen_sets 4660 * 2 ^ cs sixteen_sets +
    set_of masked_shift sixteen_sets 4660.
Proof.
  assert (0 ≤ cs sixteen_sets) as Hs by (simpl; lia).
  assert (0 ≤ cb sixteen_sets) as Hb by (simpl; lia).
  assert (cs sixteen_sets + cb sixteen_sets < 64) as Hsb by (simpl; lia).
  split_and!; [exact Hs | exact Hb | exact Hsb |].
  apply (proj1 (tag_and_set_are_the_block masked_shift sixteen_sets 4660 4663
    Hs Hb Hsb)).
Defined.

Lemma replay_ignores_offsets_witness :
  0 ≤ cs two_way ∧ 0 ≤ cb two_way ∧ cs two_way + cb two_way < 64 ∧
  (λ a, (t_instruction a, Z.shiftr (t_address a) (cb two_way))) <$>
      [store0 1; mkAccess "L" 9 1] =
    (λ a, (t_instruction a, Z.shiftr (t_address a) (cb two_way))) <$>
      [mkAccess "S" 7 1; mkAccess "L" 15 1] ∧
  incrementStats masked_shift [store0 1; mkAccess "L" 9 1] zero_stats
    (makeCache two_way) =
  incrementStats masked_shift [mkAccess "S" 7 1; mkAccess "L" 15 1] zero_stats
    (makeCache two_way).
Proof.
  assert (0 ≤ cs two_way) as Hs by (simpl; lia).
  assert (0 ≤ cb two_way) as Hb by (simpl; lia).
  assert (cs two_way + cb two_way < 64) as Hsb by (simpl; lia).
  assert ((λ a, (t_instruction a, Z.shiftr (t_address a) (cb two_way))) <$>
      [store0 1; mkAccess "L" 9 1] =
    (λ a, (t_instruction a, Z.shiftr (t_address a) (cb two_way))) <$>
      [mkAccess "S" 7 1; mkAccess "L" 15 1]) as Hsame by reflexivity.
  split_and!; [exact Hs | exact Hb | exact Hsb | exact Hsame |].
  apply (replay_ignores_offsets masked_shift two_way _ _ Hs Hb Hsb Hsame).
Defined.

Lemma replay_timestamps_are_distinct_witness :
  Z.of_nat (length [store0 1; mkAccess "L" 8 1]) < 2 ^ 31 ∧
  ∃ r, incrementStats masked_shift [store0 1; mkAccess "L" 8 1] zero_stats
         (makeCache two_way) = Ok r ∧
       stamps_distinct (run_cache r).
Proof.
  assert (Z.of_nat (length [store0 1; mkAccess "L" 8 1]) < 2 ^ 31) as Hlen
    by (simpl; lia).
  assert (∃ r, incrementStats masked_shift [store0 1; mkAccess "L" 8 1]
    zero_stats (makeCache two_way) = Ok r) as [r Hr].
  { eexists. vm_compute. reflexivity. }
  split; [exact Hlen|]. exists r. split; [exact Hr|].
  apply (replay_timestamps_are_distinct masked_shift _ _ _ Hlen Hr).
Defined.

Lemma newest_block_survives_one_access_witness :
  2 ≤ cE two_way ∧
  ∃ r, incrementStats masked_shift ([] ++ [store0 1; mkAccess "L" 8 1])
         zero_stats (makeCache two_way) = Ok r ∧
    ∃ c' o,
      isInCache masked_shift 0 (run_cache r) "L" (run_linenum r) no_flags =
        Ok (c', o) ∧
      r_hit o = true ∧ r_miss o = false.
Proof.
  assert (2 ≤ cE two_way) as HE by (simpl; lia).
  assert (∃ r, incrementStats masked_shift ([] ++ [store0 1; mkAccess "L" 8 1])
    zero_stats (makeCache two_way) = Ok r) as [r Hr].
  { eexists. vm_compute. reflexivity. }
  split; [exact HE|]. exists r. split; [exact Hr|].
  apply (newest_block_survives_one_access masked_shift two_way [] (store0 1)
    (mkAccess "L" 8 1) (mkAccess "L" 0 1) r HE ltac:(simpl; lia) eq_refl Hr).
Defined.

Lemma dirty_bytes_come_from_stores_witness :
  0 ≤ cB two_way ∧
  ∃ r, incrementStats masked_shift [store0 1; mkAccess "S" 8 1; store0 1]
         zero_stats (makeCache two_way) = Ok r ∧
       dirty_bytes (run_stats r) + dirty_evictions (run_stats r) ≤
         cB two_way * count_stores [store0 1; mkAccess "S" 8 1; store0 1].
Proof.
  assert (0 ≤ cB two_way) as HB by (simpl; lia).
  assert (∃ r, incrementStats masked_shift
    [store0 1; mkAccess "S" 8 1; store0 1] zero_stats (makeCache two_way) = Ok r)
    as [r Hr].
  { eexists. vm_compute. reflexivity. }
  split; [exact HB|]. exists r. split; [exact Hr|].
  apply (dirty_bytes_come_from_stores masked_shift _ _ _ HB Hr).
Defined.

Lemma run_completes_iff_lines_and_memory_witness :
  0 ≤ 4 ≤ 30 ∧ 0 ≤ 3 ∧ 4 + 3 ≤ 64 ∧
  (∃ r, main_alloc masked_shift (λ _, true) 4 1 3
     [store0 1; mkAccess "L" 8 1] = Ok r) ∧
  main_alloc masked_shift no_lines_for_set_3 4 1 3
    [store0 1; mkAccess "L" 8 1] = Crash (NullPointer (LineArray 3)) ∧
  ∃ al, NullPointer (LineArray 3) = NullPointer al ∧
    no_lines_for_set_3 al = false.
Proof.
  assert (0 ≤ 4 ≤ 30) as Hs by lia.
  assert (0 ≤ 3) as Hb by lia.
  assert (4 + 3 ≤ 64) as Hsb by lia.
  assert (main_alloc masked_shift no_lines_for_set_3 4 1 3
    [store0 1; mkAccess "L" 8 1] = Crash (NullPointer (LineArray 3))) as Hnull
    by reflexivity.
  split_and!; [lia | lia | exact Hb | exact Hsb | | exact Hnull |].
  - apply (proj1 (run_completes_iff_lines_and_memory masked_shift (λ _, true)
      4 1 3 (store0 1) [mkAccess "L" 8 1] Hs Hb Hsb)).
    split_and!; [lia|reflexivity|reflexivity|by intros|reflexivity|reflexivity].
  - apply (proj2 (proj2 (run_completes_iff_lines_and_memory masked_shift
      no_lines_for_set_3 4 1 3 (store0 1) [mkAccess "L" 8 1] Hs Hb Hsb))
      ltac:(lia) _ Hnull).
Defined.

Lemma last_options_decide_witness :
  last_value "s" [mkOpt "E" 4; mkOpt "s" 1; mkOpt "b" 2; mkOpt "s" 3;
                  mkOpt "x" 9; mkOpt "E" 2] = Some 3 ∧
  last_value "E" [mkOpt "E" 4; mkOpt "s" 1; mkOpt "b" 2; mkOpt "s" 3;
                  mkOpt "x" 9; mkOpt "E" 2] = Some 2 ∧
  last_value "b" [mkOpt "E" 4; mkOpt "s" 1; mkOpt "b" 2; mkOpt "s" 3;
                  mkOpt "x" 9; mkOpt "E" 2] = Some 2 ∧
  makeCache (read_options masked_shift
    [mkOpt "E" 4; mkOpt "s" 1; mkOpt "b" 2; mkOpt "s" 3; mkOpt "x" 9;
     mkOpt "E" 2] two_way_ahead) = makeCache (geometry masked_shift 3 2 2).
Proof.
  split_and!; [reflexivity..|].
  apply (last_options_decide masked_shift
    [mkOpt "E" 4; mkOpt "s" 1; mkOpt "b" 2; mkOpt "s" 3; mkOpt "x" 9;
     mkOpt "E" 2] two_way_ahead 3 2 2 eq_refl eq_refl eq_refl).
Defined.


Lemma freeCache_releases_the_layout_witness :
  load 0 [Some (CacheBlock 2 1 8 1 3 None)] =
    Some (CacheBlock 2 1 8 1 3 None) ∧
  length [[mkLine true 5 true 7]; [empty_line]] = Z.to_nat 2 ∧
  freeCache 0
    [Some (CacheBlock 2 1 8 1 3 (Some 1%nat));
     Some (SetsBlock [Some 2%nat; Some 3%nat]);
     Some (LinesBlock [mkLine true 5 true 7]); Some (LinesBlock [empty_line])] =
    Some [None; None; None; None].
Proof.
  assert (load 0 [Some (CacheBlock 2 1 8 1 3 None)] =
    Some (CacheBlock 2 1 8 1 3 None)) as Hc by reflexivity.
  assert (length [[mkLine true 5 true 7]; [empty_line]] = Z.to_nat 2) as Hlen
    by reflexivity.
  split; [exact Hc|]. split; [exact Hlen|].
  apply (freeCache_releases_the_layout 0 [Some (CacheBlock 2 1 8 1 3 None)]
    2 1 8 1 3 None [[mkLine true 5 true 7]; [empty_line]] Hc Hlen).
Defined.
